(** * The ALU of [alu.py]: a shallow embedding and its verification

    [alu.py] describes a combinational ALU in nMigen.  The file models
    - the part of nMigen's value language the ALU uses (unsigned bit
      vectors with their widths, [Value]);
    - the class [Alu]: its constructor, the statements [elaborate] adds
      to the combinational domain, read as one pass of the combinational
      process, and the settling of that process after the inputs are
      driven;
    and proves what each operation code computes. *)

From Stdlib Require Import ZArith Lia Bool List.
Import ListNotations.
Local Open Scope Z_scope.

(** ** Fallible computations

    An [IndexError] or [TypeError] raised by nMigen is the result [None]. *)

Definition bind {X Y : Type} (m : option X) (k : X -> option Y) : option Y :=
  match m with
  | Some x => k x
  | None => None
  end.

Notation "x <- m ;; k" := (bind m (fun x => k))
  (at level 61, m at next level, right associativity).

(** ** nMigen values *)

Module Value.

(** An unsigned nMigen value: its width in bits and the integer it
    holds.  The ALU has no signed value. *)
Record t : Type := mk { width : Z; val : Z }.

(** [nmigen.utils.bits_for] without a sign bit requested. *)
Definition bits_for (n : Z) : Z :=
  if 0 <? n then Z.log2_up (n + 1) else Z.log2_up (- n) + 1.

(** [Const(n)] for a non-negative [n], and the implicit cast of a
    Python integer operand. *)
Definition Const (n : Z) : t := mk (bits_for n) n.

(** [a + b]: one bit wider than the wider operand. *)
Definition add (a b : t) : t :=
  mk (Z.max (width a) (width b) + 1) (val a + val b).

(** [a - b] on unsigned operands: unsigned, one bit wider than the wider
    operand, the difference wrapped to that width. *)
Definition sub (a b : t) : t :=
  let w := Z.max (width a) (width b) + 1 in
  mk w ((val a - val b) mod 2 ^ w).

(** [~a]: the complement within the operand's width. *)
Definition invert (a : t) : t :=
  mk (width a) (Z.lnot (val a) mod 2 ^ width a).

Definition and_ (a b : t) : t :=
  mk (Z.max (width a) (width b)) (Z.land (val a) (val b)).

Definition or_ (a b : t) : t :=
  mk (Z.max (width a) (width b)) (Z.lor (val a) (val b)).

Definition xor (a b : t) : t :=
  mk (Z.max (width a) (width b)) (Z.lxor (val a) (val b)).

(** [a == b] and [a != b]: one bit. *)
Definition eq (a b : t) : t := mk 1 (Z.b2z (val a =? val b)).

Definition ne (a b : t) : t := mk 1 (Z.b2z (negb (val a =? val b))).

(** [a << n] for a Python integer [n]: the amount is cast to a constant
    of [bits_for n] bits, and the result has room for the largest
    amount of that width. *)
Definition lshift (a : t) (n : Z) : t :=
  mk (width a + 2 ^ bits_for n - 1) (Z.shiftl (val a) n).

(** [a >> n]: the operand's width. *)
Definition rshift (a : t) (n : Z) : t :=
  mk (width a) (Z.shiftr (val a) n).

(** [a[k]] for an integer [k]: Python's index rule, an [IndexError]
    outside [range(-len(a), len(a))], a negative index counted from
    the top. *)
Definition getitem (a : t) (k : Z) : option t :=
  let n := width a in
  if (- n <=? k) && (k <? n)
  then let i := if k <? 0 then k + n else k in
       Some (mk 1 (Z.b2z (Z.testbit (val a) i)))
  else None.

(** [a[:k]]: Python's [slice(None, k).indices(len(a))] clamps the stop,
    so the slice never raises. *)
Definition slice_to (a : t) (k : Z) : t :=
  let n := width a in
  let stop := if k <? 0 then Z.max (k + n) 0 else Z.min k n in
  mk stop (val a mod 2 ^ stop).

(** [Shape(width)]: a [TypeError] for a negative width. *)
Definition Shape (width : Z) : option Z :=
  if width <? 0 then None else Some width.

(** What [sig.eq(v)] stores in a signal of width [w]: the low [w] bits. *)
Definition assign (w : Z) (v : t) : Z := val v mod 2 ^ w.

End Value.

(** ** [class AluFunc(IntEnum)] *)

Module AluFunc.
Definition NONE : Z := 0.
Definition ADD : Z := 1.
Definition SUB : Z := 2.
Definition NEG : Z := 8.
Definition AND : Z := 9.
Definition OR : Z := 10.
Definition ROL : Z := 11.
Definition ROR : Z := 12.
Definition LSL : Z := 13.
Definition LSR : Z := 14.
Definition ASR : Z := 15.
Definition CLC : Z := 16.
Definition CLV : Z := 17.

(** The members in declaration order. *)
Definition members : list Z :=
  [NONE; ADD; SUB; NEG; AND; OR; ROL; ROR; LSL; LSR; ASR; CLC; CLV].

(** The members that have a [Case] of their own in [elaborate]. *)
Definition cases : list Z :=
  [ADD; SUB; NEG; AND; OR; ROL; ROR; LSL; LSR; ASR; CLC; CLV].

(** [Signal(AluFunc)]: wide enough for the largest member. *)
Definition width : Z := Value.bits_for 17.
End AluFunc.

(** ** [class Alu(Elaboratable)] *)

(** An instance: its width and the value each of its signals holds. *)
Record Alu : Type := mkAlu {
  size : Z;
  A : Z;
  B : Z;
  OUT : Z;
  func : Z;
  zero : Z;
  carry : Z;
  negative : Z;
  overflow : Z;
  signed : Z
}.

(** [Alu.__init__]: the only check is the one [Signal] makes on its shape;
    every signal starts at its reset value 0. *)
Definition Alu_init (size : Z) : option Alu :=
  _ <- Value.Shape size ;;
  _ <- Value.Shape AluFunc.width ;;
  Some (mkAlu size 0 0 0 0 0 0 0 0 0).

(** What one [Case] arm drives: [OUT], [carry], [overflow].  A signal the
    arm does not assign keeps the reset value the pass started from. *)
Record Driven : Type := mkDriven { d_OUT : Z; d_carry : Z; d_overflow : Z }.

Definition reset_OUT : Z := 0.
Definition reset_carry : Z := 0.
Definition reset_overflow : Z := 0.

(** The [with m.Switch(self.func):] block of [Alu.elaborate].  Right-hand
    sides read the values the signals hold when the pass starts.  An
    index out of range is raised while the statement is built, so the
    block has no result. *)
Definition switch (self : Alu) : option Driven :=
  let W := size self in
  let a := Value.mk W (A self) in
  let b := Value.mk W (B self) in
  let out := Value.mk W (OUT self) in
  let c := Value.mk 1 (carry self) in
    (if func self =? AluFunc.ADD then
       cy <- Value.getitem (Value.add a b) W ;;
       am <- Value.getitem a (W - 1) ;;
       bm <- Value.getitem b (W - 1) ;;
       om <- Value.getitem out (W - 1) ;;
       Some (mkDriven
               (Value.assign W (Value.slice_to (Value.add a b) W))
               (Value.assign 1 cy)
               (Value.assign 1 (Value.and_ (Value.eq am bm) (Value.ne am om))))
     else if func self =? AluFunc.SUB then
       cy <- Value.getitem (Value.sub a b) W ;;
       am <- Value.getitem a (W - 1) ;;
       bm <- Value.getitem b (W - 1) ;;
       om <- Value.getitem out (W - 1) ;;
       Some (mkDriven
               (Value.assign W (Value.slice_to (Value.sub a b) W))
               (Value.assign 1 cy)
               (Value.assign 1 (Value.and_ (Value.ne am bm) (Value.ne am om))))
     else if func self =? AluFunc.NEG then
       Some (mkDriven (Value.assign W (Value.invert a))
               reset_carry reset_overflow)
     else if func self =? AluFunc.AND then
       Some (mkDriven (Value.assign W (Value.and_ a b))
               reset_carry reset_overflow)
     else if func self =? AluFunc.OR then
       Some (mkDriven (Value.assign W (Value.or_ a b))
               reset_carry reset_overflow)
     else if func self =? AluFunc.ROL then
       am <- Value.getitem a (W - 1) ;;
       Some (mkDriven
               (Value.assign W
                  (Value.slice_to (Value.or_ (Value.lshift a 1) c) W))
               (Value.assign 1 am)
               reset_overflow)
     else if func self =? AluFunc.ROR then
       a0 <- Value.getitem a 0 ;;
       Some (mkDriven
               (Value.assign W
                  (Value.or_ (Value.rshift a 1)
                     (Value.slice_to (Value.lshift c (W - 1)) W)))
               (Value.assign 1 a0)
               reset_overflow)
     else if func self =? AluFunc.LSL then
       am <- Value.getitem a (W - 1) ;;
       Some (mkDriven
               (Value.assign W (Value.slice_to (Value.lshift a 1) W))
               (Value.assign 1 am)
               reset_overflow)
     else if func self =? AluFunc.LSR then
       a0 <- Value.getitem a 0 ;;
       Some (mkDriven
               (Value.assign W (Value.slice_to (Value.rshift a 1) W))
               (Value.assign 1 a0)
               reset_overflow)
     else if func self =? AluFunc.ASR then
       am <- Value.getitem a (W - 1) ;;
       a0 <- Value.getitem a 0 ;;
       Some (mkDriven
               (Value.assign W
                  (Value.slice_to
                     (Value.or_
                        (Value.rshift (Value.slice_to a (W - 1)) 1)
                        (Value.lshift am (W - 1)))
                     W))
               (Value.assign 1 a0)
               reset_overflow)
     else if func self =? AluFunc.CLC then
       Some (mkDriven reset_OUT (Value.assign 1 (Value.Const 0))
               reset_overflow)
     else if func self =? AluFunc.CLV then
       Some (mkDriven reset_OUT reset_carry
               (Value.assign 1 (Value.Const 0)))
     else
       Some (mkDriven (Value.assign W a) reset_carry reset_overflow)).

(** [Alu.elaborate]: the statements of the combinational domain, as one
    pass of the module's combinational process: the three derived flags,
    then the switch.  The driven signals are committed together when the
    pass ends; the inputs are not driven. *)
Definition elaborate (self : Alu) : option Alu :=
  let W := size self in
  let out := Value.mk W (OUT self) in
  let n := Value.mk 1 (negative self) in
  let v := Value.mk 1 (overflow self) in
  let signed' := Value.assign 1 (Value.xor n v) in
  let zero' := Value.assign 1 (Value.eq out (Value.Const 0)) in
  out_msb <- Value.getitem out (W - 1) ;;
  let negative' := Value.assign 1 out_msb in
  d <- switch self ;;
  Some (mkAlu W (A self) (B self) (d_OUT d) (func self)
          zero' (d_carry d) negative' (d_overflow d) signed').

(** ** Simulation *)

(** Whether a pass changed no signal. *)
Definition Alu_eqb (s t : Alu) : bool :=
  (size s =? size t) && (A s =? A t) && (B s =? B t) && (OUT s =? OUT t)
  && (func s =? func t) && (zero s =? zero t) && (carry s =? carry t)
  && (negative s =? negative t) && (overflow s =? overflow t)
  && (signed s =? signed t).

(** The simulator re-runs the combinational process as long as a pass
    changes a signal it reads.  [fuel] bounds the number of passes. *)
Fixpoint settle (fuel : nat) (self : Alu) : option Alu :=
  match fuel with
  | O => None
  | S k =>
      s' <- elaborate self ;;
      if Alu_eqb s' self then Some self else settle k s'
  end.

(** The test bench's [yield a.eq(..)], [yield b.eq(..)],
    [yield func.eq(..)]: each input keeps the low bits its signal has
    room for; the other signals keep what they held. *)
Definition drive (self : Alu) (a b f : Z) : Alu :=
  mkAlu (size self)
        (Value.assign (size self) (Value.Const a))
        (Value.assign (size self) (Value.Const b))
        (OUT self)
        (Value.assign AluFunc.width (Value.Const f))
        (zero self) (carry self) (negative self) (overflow self)
        (signed self).

(** Drive the inputs of an existing instance and let it settle, as each
    [Delay] of the test bench does. *)
Definition run (fuel : nat) (self : Alu) (a b f : Z) : option Alu :=
  settle fuel (drive self a b f).

(** One evaluation from scratch: construct, drive, settle. *)
Definition evaluate (fuel : nat) (W a b f : Z) : option Alu :=
  self <- Alu_init W ;;
  run fuel self a b f.


(** Two instances with the same width and the same inputs. *)
Definition same_inputs (s t : Alu) : Prop :=
  size s = size t /\ A s = A t /\ B s = B t /\ func s = func t.

(** A state the combinational process maps to itself: the simulator
    stops there. *)
Definition stable (s : Alu) : Prop := elaborate s = Some s.

(** One pass, with a failed pass leaving the state alone. *)
Definition next (s : Alu) : Alu :=
  match elaborate s with
  | Some t => t
  | None => s
  end.

(** ** The rotates as the specification words them

    The specification reads ROL and ROR as rotates through a carry that
    comes in from outside: [cin] enters at bit 0 (ROL) or at bit [W - 1]
    (ROR) of the shifted operand. *)

Definition ROL_through_carry (W a cin : Z) : Z :=
  Z.lor (Z.shiftl a 1) cin mod 2 ^ W.

Definition ROR_through_carry (W a cin : Z) : Z :=
  Z.lor (Z.shiftr a 1) (Z.shiftl cin (W - 1)) mod 2 ^ W.

(** ** The test bench

    The commands the generator [process] yields: an assignment to one of
    the three inputs, or a [Delay], during which the combinational
    domain settles.  The length of the delay plays no part. *)
Inductive Command : Type :=
| a_eq (v : Z)
| b_eq (v : Z)
| func_eq (v : Z)
| Delay.

(** [yield a.eq(v)], [yield b.eq(v)], [yield func.eq(v)]: the signal
    keeps the low bits it has room for. *)
Definition set_A (self : Alu) (v : Z) : Alu :=
  mkAlu (size self) (Value.assign (size self) (Value.Const v)) (B self)
        (OUT self) (func self) (zero self) (carry self) (negative self)
        (overflow self) (signed self).

Definition set_B (self : Alu) (v : Z) : Alu :=
  mkAlu (size self) (A self) (Value.assign (size self) (Value.Const v))
        (OUT self) (func self) (zero self) (carry self) (negative self)
        (overflow self) (signed self).

Definition set_func (self : Alu) (v : Z) : Alu :=
  mkAlu (size self) (A self) (B self) (OUT self)
        (Value.assign AluFunc.width (Value.Const v))
        (zero self) (carry self) (negative self) (overflow self)
        (signed self).

(** The generator [process] of the test bench; [0b01111111] is 127 and
    [0b00000001] is 1. *)
Definition process : list Command :=
  [ a_eq 0x01; b_eq 0x55; Delay;
    func_eq AluFunc.ADD; Delay;
    func_eq AluFunc.CLV; Delay;
    func_eq AluFunc.CLC; Delay;
    func_eq AluFunc.SUB; Delay;
    func_eq AluFunc.CLV; Delay;
    func_eq AluFunc.CLC; Delay;
    func_eq AluFunc.NEG; Delay;
    func_eq AluFunc.AND; Delay;
    a_eq 127; b_eq 1; func_eq AluFunc.ADD; Delay ].

(** Running a list of commands on an instance: the trace holds the
    settled instance at each [Delay], as the waveform records it. *)
Fixpoint simulate (fuel : nat) (self : Alu) (cmds : list Command)
  : option (list Alu) :=
  match cmds with
  | [] => Some []
  | a_eq v :: rest => simulate fuel (set_A self v) rest
  | b_eq v :: rest => simulate fuel (set_B self v) rest
  | func_eq v :: rest => simulate fuel (set_func self v) rest
  | Delay :: rest =>
      r <- settle fuel self ;;
      trace <- simulate fuel r rest ;;
      Some (r :: trace)
  end.

(** The default of [Alu.__init__(self, size=8)]. *)
Definition default_size : Z := 8.

(** The main block: [Alu()] with the default width, run under [process]. *)
Definition main (fuel : nat) : option (list Alu) :=
  self <- Alu_init default_size ;;
  simulate fuel self process.

Definition is_Delay (c : Command) : bool :=
  match c with
  | Delay => true
  | _ => false
  end.

(** ** Reading words as signed numbers

    The two's-complement value of a [W]-bit word, the reading under which
    [overflow] and [signed] are meant. *)
Definition signed_value (W x : Z) : Z :=
  if Z.testbit x (W - 1) then x - 2 ^ W else x.

(** ** The inputs over a run of the test bench *)

(** The inputs of an instance fit their signals. *)
Definition inputs_in_range (s : Alu) : Prop :=
  0 <= A s < 2 ^ size s /\ 0 <= B s < 2 ^ size s
  /\ 0 <= func s < 2 ^ AluFunc.width.

(** The inputs [(a, b, func)] in force at each [Delay] of a list of
    commands, starting from the inputs [a], [b], [f] and following the
    assignments alone. *)
Fixpoint snapshots (W a b f : Z) (cmds : list Command)
  : list (Z * Z * Z) :=
  match cmds with
  | [] => []
  | a_eq v :: rest => snapshots W (v mod 2 ^ W) b f rest
  | b_eq v :: rest => snapshots W a (v mod 2 ^ W) f rest
  | func_eq v :: rest => snapshots W a b (v mod 2 ^ AluFunc.width) rest
  | Delay :: rest => (a, b, f) :: snapshots W a b f rest
  end.

(** * Verification *)

(** ** The value language *)

Lemma getitem_in_range (x : Value.t) (k : Z) :
  0 <= k < Value.width x ->
  Value.getitem x k
  = Some (Value.mk 1 (Z.b2z (Z.testbit (Value.val x) k))).
Proof.
  intros Hk. unfold Value.getitem.
  assert (Hin : (- Value.width x <=? k) && (k <? Value.width x) = true).
  { apply andb_true_intro. split; [apply Z.leb_le | apply Z.ltb_lt]; lia. }
  assert (Hpos : (k <? 0) = false) by (apply Z.ltb_ge; lia).
  rewrite Hin, Hpos. reflexivity.
Qed.

Lemma getitem_out_of_range (x : Value.t) (k : Z) :
  k < - Value.width x \/ Value.width x <= k ->
  Value.getitem x k = None.
Proof.
  intros Hk. unfold Value.getitem.
  assert (Hout : (- Value.width x <=? k) && (k <? Value.width x) = false).
  { apply andb_false_iff. destruct Hk; [left; apply Z.leb_gt | right; apply Z.ltb_ge]; lia. }
  rewrite Hout. reflexivity.
Qed.

Lemma b2z_range (b : bool) : 0 <= Z.b2z b < 2.
Proof. destruct b; cbn; lia. Qed.

Lemma b2z_mod2 (b : bool) : Z.b2z b mod 2 ^ 1 = Z.b2z b.
Proof. destruct b; reflexivity. Qed.

Lemma mod_mod_pow2 (x w : Z) : (x mod 2 ^ w) mod 2 ^ w = x mod 2 ^ w.
Proof.
  destruct (Z.eq_dec (2 ^ w) 0) as [E | E].
  - rewrite E. now rewrite !Z.mod_0_r.
  - now rewrite Z.mod_mod.
Qed.

(** ** Equality of instances *)

Lemma Alu_eqb_eq (s t : Alu) : Alu_eqb s t = true <-> s = t.
Proof.
  split.
  - unfold Alu_eqb. rewrite !andb_true_iff, !Z.eqb_eq.
    destruct s, t; cbn. intuition congruence.
  - intros ->. unfold Alu_eqb. now rewrite !Z.eqb_refl.
Qed.

Lemma Alu_eqb_neq (s t : Alu) : Alu_eqb s t = false <-> s <> t.
Proof.
  rewrite <- Alu_eqb_eq. destruct (Alu_eqb s t); intuition congruence.
Qed.

(** ** One pass of the combinational process *)

(** Splits the chain of [Case] tests, then runs the index checks. *)
Ltac switch_cases :=
  repeat match goal with
         | |- context [if ?c then _ else _] => destruct c eqn:?
         | H : context [if ?c then _ else _] |- _ => destruct c eqn:?
         end.

Ltac index_checks :=
  repeat (rewrite getitem_in_range
            by (unfold Value.add, Value.sub;
                cbn [Value.width Value.val]; lia);
          cbn [bind]);
  cbn [bind].

Ltac index_checks_in H :=
  repeat (rewrite getitem_in_range in H
            by (unfold Value.add, Value.sub;
                cbn [Value.width Value.val]; lia);
          cbn [bind] in H);
  cbn [bind] in H.

Lemma switch_total (s : Alu) :
  1 <= size s -> exists d, switch s = Some d.
Proof.
  intros HW. unfold switch. switch_cases; index_checks; eauto.
Qed.

Lemma elaborate_total (s : Alu) :
  1 <= size s -> exists t, elaborate s = Some t.
Proof.
  intros HW. unfold elaborate.
  destruct (switch_total s HW) as [d ->].
  index_checks. eauto.
Qed.

Lemma elaborate_next (s : Alu) :
  1 <= size s -> elaborate s = Some (next s).
Proof.
  intros HW. unfold next.
  destruct (elaborate_total s HW) as [t ->]. reflexivity.
Qed.

(** A pass does not touch the width or the inputs. *)
Lemma elaborate_inputs (s t : Alu) :
  elaborate s = Some t -> same_inputs t s.
Proof.
  unfold elaborate, same_inputs.
  destruct (Value.getitem _ _); cbn [bind]; [| discriminate].
  destruct (switch s); cbn [bind]; [| discriminate].
  intros E. injection E as <-. cbn. auto.
Qed.

Lemma next_inputs (s : Alu) : same_inputs (next s) s.
Proof.
  unfold next. destruct (elaborate s) eqn:E.
  - now apply elaborate_inputs.
  - unfold same_inputs. auto.
Qed.

Lemma same_inputs_sym (s t : Alu) : same_inputs s t -> same_inputs t s.
Proof. unfold same_inputs. intuition congruence. Qed.

Lemma same_inputs_trans (s t u : Alu) :
  same_inputs s t -> same_inputs t u -> same_inputs s u.
Proof. unfold same_inputs. intuition congruence. Qed.

(** What each driven signal of an arm depends on: [carry] on the inputs
    only, [OUT] on the inputs and the carry read, [overflow] on the
    inputs and the [OUT] read. *)
Lemma switch_deps (s1 s2 : Alu) (d1 d2 : Driven) :
  1 <= size s1 -> same_inputs s1 s2 ->
  switch s1 = Some d1 -> switch s2 = Some d2 ->
  d_carry d1 = d_carry d2
  /\ (carry s1 = carry s2 -> d_OUT d1 = d_OUT d2)
  /\ (OUT s1 = OUT s2 -> d_overflow d1 = d_overflow d2).
Proof.
  destruct s1, s2. unfold same_inputs. cbn.
  intros HW (<- & <- & <- & <-). unfold switch.
  cbn [size A B OUT func carry]. intros H1 H2.
  switch_cases; index_checks_in H1; index_checks_in H2;
    injection H1 as <-; injection H2 as <-; cbn [d_OUT d_carry d_overflow];
    repeat split; intros; subst; reflexivity.
Qed.

Lemma next_unfold (s : Alu) :
  1 <= size s ->
  exists d, switch s = Some d
    /\ next s
       = mkAlu (size s) (A s) (B s) (d_OUT d) (func s)
           (Z.b2z (OUT s =? 0)) (d_carry d)
           (Z.b2z (Z.testbit (OUT s) (size s - 1))) (d_overflow d)
           (Z.lxor (negative s) (overflow s) mod 2 ^ 1).
Proof.
  intros HW. destruct (switch_total s HW) as [d Hd]. exists d.
  split; [exact Hd |]. unfold next, elaborate. rewrite Hd.
  index_checks. unfold Value.assign, Value.eq, Value.xor, Value.Const.
  cbn [Value.val]. now rewrite !b2z_mod2.
Qed.

Lemma Alu_ext (s t : Alu) :
  size s = size t -> A s = A t -> B s = B t -> OUT s = OUT t ->
  func s = func t -> zero s = zero t -> carry s = carry t ->
  negative s = negative t -> overflow s = overflow t ->
  signed s = signed t -> s = t.
Proof. destruct s, t; cbn; intros; subst; reflexivity. Qed.

Section Dependencies.

Variables s1 s2 : Alu.
Hypothesis HW : 1 <= size s1.
Hypothesis Hin : same_inputs s1 s2.

Lemma next_carry : carry (next s1) = carry (next s2).
Proof.
  assert (HW2 : 1 <= size s2) by (destruct Hin as [<- _]; exact HW).
  destruct (next_unfold s1 HW) as (d1 & Hd1 & ->).
  destruct (next_unfold s2 HW2) as (d2 & Hd2 & ->).
  cbn. apply (switch_deps s1 s2 d1 d2 HW Hin Hd1 Hd2).
Qed.

Lemma next_OUT : carry s1 = carry s2 -> OUT (next s1) = OUT (next s2).
Proof.
  assert (HW2 : 1 <= size s2) by (destruct Hin as [<- _]; exact HW).
  destruct (next_unfold s1 HW) as (d1 & Hd1 & ->).
  destruct (next_unfold s2 HW2) as (d2 & Hd2 & ->).
  cbn. apply (switch_deps s1 s2 d1 d2 HW Hin Hd1 Hd2).
Qed.

Lemma next_overflow :
  OUT s1 = OUT s2 -> overflow (next s1) = overflow (next s2).
Proof.
  assert (HW2 : 1 <= size s2) by (destruct Hin as [<- _]; exact HW).
  destruct (next_unfold s1 HW) as (d1 & Hd1 & ->).
  destruct (next_unfold s2 HW2) as (d2 & Hd2 & ->).
  cbn. apply (switch_deps s1 s2 d1 d2 HW Hin Hd1 Hd2).
Qed.

Lemma next_zero : OUT s1 = OUT s2 -> zero (next s1) = zero (next s2).
Proof.
  assert (HW2 : 1 <= size s2) by (destruct Hin as [<- _]; exact HW).
  destruct (next_unfold s1 HW) as (d1 & Hd1 & ->).
  destruct (next_unfold s2 HW2) as (d2 & Hd2 & ->).
  cbn. now intros ->.
Qed.

Lemma next_negative :
  OUT s1 = OUT s2 -> negative (next s1) = negative (next s2).
Proof.
  assert (HW2 : 1 <= size s2) by (destruct Hin as [<- _]; exact HW).
  destruct (next_unfold s1 HW) as (d1 & Hd1 & ->).
  destruct (next_unfold s2 HW2) as (d2 & Hd2 & ->).
  cbn. destruct Hin as [-> _]. now intros ->.
Qed.

Lemma next_signed :
  negative s1 = negative s2 -> overflow s1 = overflow s2 ->
  signed (next s1) = signed (next s2).
Proof.
  assert (HW2 : 1 <= size s2) by (destruct Hin as [<- _]; exact HW).
  destruct (next_unfold s1 HW) as (d1 & Hd1 & ->).
  destruct (next_unfold s2 HW2) as (d2 & Hd2 & ->).
  cbn. now intros -> ->.
Qed.

End Dependencies.

(** ** Settling *)

(** The signals form a chain four deep: [carry], then [OUT], then
    [zero], [negative] and [overflow], then [signed].  So four passes from
    any state reach a state the fifth does not change. *)
Lemma fourth_pass_stable (s : Alu) :
  1 <= size s ->
  next (next (next (next (next s)))) = next (next (next (next s))).
Proof.
  intros HW.
  set (s1 := next s). set (s2 := next s1). set (s3 := next s2).
  set (s4 := next s3).
  assert (I1 : same_inputs s1 s) by apply next_inputs.
  assert (I2 : same_inputs s2 s1) by apply next_inputs.
  assert (I3 : same_inputs s3 s2) by apply next_inputs.
  assert (I4 : same_inputs s4 s3) by apply next_inputs.
  assert (W1 : 1 <= size s1) by (destruct I1 as [-> _]; exact HW).
  assert (W2 : 1 <= size s2) by (destruct I2 as [-> _]; exact W1).
  assert (W3 : 1 <= size s3) by (destruct I3 as [-> _]; exact W2).
  assert (W4 : 1 <= size s4) by (destruct I4 as [-> _]; exact W3).
  assert (C2 : carry s2 = carry s1) by (apply next_carry; assumption).
  assert (C3 : carry s3 = carry s2) by (apply next_carry; assumption).
  assert (C4 : carry s4 = carry s3) by (apply next_carry; assumption).
  assert (O3 : OUT s3 = OUT s2) by (apply next_OUT; assumption).
  assert (O4 : OUT s4 = OUT s3) by (apply next_OUT; assumption).
  assert (V4 : overflow s4 = overflow s3)
    by (apply next_overflow; assumption).
  assert (N4 : negative s4 = negative s3)
    by (apply next_negative; assumption).
  pose proof (next_inputs s4) as (E1 & E2 & E3 & E4).
  apply Alu_ext; try assumption.
  - apply next_OUT; assumption.
  - apply next_zero; assumption.
  - apply next_carry; assumption.
  - apply next_negative; assumption.
  - apply next_overflow; assumption.
  - apply next_signed; assumption.
Qed.

Lemma stable_next (s : Alu) : 1 <= size s -> (stable s <-> next s = s).
Proof.
  intros HW. unfold stable. rewrite (elaborate_next s HW).
  split; congruence.
Qed.

Lemma settle_step (k : nat) (s : Alu) :
  1 <= size s ->
  settle (S k) s = if Alu_eqb (next s) s then Some s else settle k (next s).
Proof.
  intros HW. cbn [settle]. rewrite (elaborate_next s HW). reflexivity.
Qed.

(** If [n] passes reach a stable state, more than [n] passes of fuel
    make the simulator stop at a stable state with the same inputs. *)
Lemma settle_reaches (n : nat) :
  forall (s : Alu) (fuel : nat),
    1 <= size s -> (n < fuel)%nat ->
    next (Nat.iter n next s) = Nat.iter n next s ->
    exists r, settle fuel s = Some r /\ stable r /\ same_inputs r s.
Proof.
  induction n as [| n IH]; intros s fuel HW Hfuel Hst.
  - destruct fuel as [| k]; [lia |]. cbn in Hst.
    rewrite (settle_step k s HW), Hst.
    replace (Alu_eqb s s) with true by (symmetry; now apply Alu_eqb_eq).
    exists s. repeat split; [now apply stable_next | ..]; reflexivity.
  - destruct fuel as [| k]; [lia |].
    rewrite (settle_step k s HW).
    destruct (Alu_eqb (next s) s) eqn:E.
    + apply Alu_eqb_eq in E. exists s.
      repeat split; [now apply stable_next | ..]; reflexivity.
    + pose proof (next_inputs s) as I1.
      assert (W1 : 1 <= size (next s)) by (destruct I1 as [-> _]; exact HW).
      rewrite Nat.iter_succ_r in Hst.
      destruct (IH (next s) k W1 ltac:(lia) Hst) as (r & Hr & Hs & Hi).
      exists r. repeat split; try assumption;
        apply (same_inputs_trans _ _ _ Hi I1).
Qed.

Theorem settle_converges (fuel : nat) (s : Alu) :
  1 <= size s -> (5 <= fuel)%nat ->
  exists r, settle fuel s = Some r /\ stable r /\ same_inputs r s.
Proof.
  intros HW Hfuel. apply (settle_reaches 4); [assumption | lia |].
  cbn [Nat.iter nat_rect]. now apply fourth_pass_stable.
Qed.

(** ** The arms of the switch, one by one *)

Lemma slice_to_low (x : Value.t) (k : Z) :
  0 <= k <= Value.width x ->
  Value.slice_to x k = Value.mk k (Value.val x mod 2 ^ k).
Proof.
  intros Hk. unfold Value.slice_to.
  replace (k <? 0) with false by (symmetry; apply Z.ltb_ge; lia).
  now rewrite Z.min_l by lia.
Qed.

Lemma bits_for_1 : Value.bits_for 1 = 1.
Proof. reflexivity. Qed.

(** A shift by [W - 1] leaves room for [W] bits. *)
Lemma pow2_bits_for_pred (W : Z) : 1 <= W -> W <= 2 ^ Value.bits_for (W - 1).
Proof.
  intros HW. unfold Value.bits_for.
  destruct (0 <? W - 1) eqn:E.
  - apply Z.ltb_lt in E. replace (W - 1 + 1) with W by lia.
    apply Z.log2_up_spec. lia.
  - apply Z.ltb_ge in E. replace (W - 1) with 0 by lia. cbn. lia.
Qed.

(** Decides the [Case] tests once the operation code is known. *)
Ltac decide_cases :=
  repeat match goal with
         | |- context [?x =? ?y] =>
             let v := eval vm_compute in (x =? y) in
             change (x =? y) with v
         end;
  cbv iota.

Ltac enter_arm Hf :=
  unfold switch; rewrite Hf; decide_cases; index_checks.

Lemma switch_ADD (s : Alu) :
  1 <= size s -> func s = AluFunc.ADD ->
  switch s
  = Some (mkDriven
            ((A s + B s) mod 2 ^ size s)
            (Z.b2z (Z.testbit (A s + B s) (size s)))
            (Z.b2z (Bool.eqb (Z.testbit (A s) (size s - 1))
                             (Z.testbit (B s) (size s - 1))
                    && xorb (Z.testbit (A s) (size s - 1))
                            (Z.testbit (OUT s) (size s - 1))))).
Proof.
  intros HW Hf. enter_arm Hf. do 2 f_equal.
  - rewrite slice_to_low by (cbn; lia).
    unfold Value.assign. cbn [Value.val Value.add]. apply mod_mod_pow2.
  - unfold Value.assign. cbn [Value.val Value.add]. apply b2z_mod2.
  - unfold Value.assign, Value.and_, Value.eq, Value.ne. cbn [Value.val].
    destruct (Z.testbit (A s) (size s - 1)), (Z.testbit (B s) (size s - 1)),
      (Z.testbit (OUT s) (size s - 1)); reflexivity.
Qed.

Lemma switch_SUB (s : Alu) :
  1 <= size s -> func s = AluFunc.SUB ->
  switch s
  = Some (mkDriven
            ((A s - B s) mod 2 ^ size s)
            (Z.b2z (Z.testbit (A s - B s) (size s)))
            (Z.b2z (xorb (Z.testbit (A s) (size s - 1))
                         (Z.testbit (B s) (size s - 1))
                    && xorb (Z.testbit (A s) (size s - 1))
                            (Z.testbit (OUT s) (size s - 1))))).
Proof.
  intros HW Hf. enter_arm Hf. do 2 f_equal.
  - rewrite slice_to_low by (cbn; lia).
    unfold Value.assign. cbn [Value.val Value.sub Value.width].
    rewrite Z.max_id, mod_mod_pow2.
    replace (2 ^ (size s + 1)) with (2 ^ size s * 2)
      by (rewrite Z.pow_add_r by lia; reflexivity).
    rewrite Z.rem_mul_r by lia.
    rewrite Z.mul_comm, Z.mod_add by lia. apply mod_mod_pow2.
  - unfold Value.assign. cbn [Value.val Value.sub Value.width].
    rewrite Z.max_id, b2z_mod2, Z.testbit_mod_pow2 by lia.
    replace (size s <? size s + 1) with true
      by (symmetry; apply Z.ltb_lt; lia).
    reflexivity.
  - unfold Value.assign, Value.and_, Value.eq, Value.ne. cbn [Value.val].
    destruct (Z.testbit (A s) (size s - 1)), (Z.testbit (B s) (size s - 1)),
      (Z.testbit (OUT s) (size s - 1)); reflexivity.
Qed.

Lemma switch_NEG (s : Alu) :
  func s = AluFunc.NEG ->
  switch s = Some (mkDriven (Z.lnot (A s) mod 2 ^ size s) 0 0).
Proof.
  intros Hf. enter_arm Hf. do 2 f_equal.
  unfold Value.assign, Value.invert. cbn [Value.val Value.width].
  apply mod_mod_pow2.
Qed.

Lemma switch_ROL (s : Alu) :
  1 <= size s -> func s = AluFunc.ROL ->
  switch s
  = Some (mkDriven
            (Z.lor (Z.shiftl (A s) 1) (carry s) mod 2 ^ size s)
            (Z.b2z (Z.testbit (A s) (size s - 1)))
            0).
Proof.
  intros HW Hf. enter_arm Hf. do 2 f_equal.
  - rewrite slice_to_low
      by (unfold Value.or_, Value.lshift; cbn [Value.width];
          rewrite bits_for_1; lia).
    unfold Value.assign, Value.or_, Value.lshift. cbn [Value.val].
    apply mod_mod_pow2.
  - unfold Value.assign. cbn [Value.val]. apply b2z_mod2.
Qed.

Lemma switch_ROR (s : Alu) :
  1 <= size s -> func s = AluFunc.ROR ->
  switch s
  = Some (mkDriven
            (Z.lor (Z.shiftr (A s) 1)
                   (Z.shiftl (carry s) (size s - 1) mod 2 ^ size s)
             mod 2 ^ size s)
            (Z.b2z (Z.testbit (A s) 0))
            0).
Proof.
  intros HW Hf. enter_arm Hf. do 2 f_equal.
  - pose proof (pow2_bits_for_pred (size s) HW) as Hroom.
    rewrite slice_to_low
      by (unfold Value.lshift; cbn [Value.width]; lia).
    unfold Value.assign, Value.or_, Value.rshift, Value.lshift.
    cbn [Value.val]. reflexivity.
  - unfold Value.assign. cbn [Value.val]. apply b2z_mod2.
Qed.

Lemma switch_ASR (s : Alu) :
  1 <= size s -> func s = AluFunc.ASR ->
  switch s
  = Some (mkDriven
            (Z.lor (Z.shiftr (A s mod 2 ^ (size s - 1)) 1)
                   (Z.shiftl (Z.b2z (Z.testbit (A s) (size s - 1)))
                             (size s - 1))
             mod 2 ^ size s)
            (Z.b2z (Z.testbit (A s) 0))
            0).
Proof.
  intros HW Hf. enter_arm Hf. do 2 f_equal.
  - pose proof (pow2_bits_for_pred (size s) HW) as Hroom.
    rewrite (slice_to_low (Value.mk (size s) (A s)) (size s - 1))
      by (cbn [Value.width]; lia).
    rewrite slice_to_low
      by (unfold Value.or_, Value.rshift, Value.lshift;
          cbn [Value.width]; lia).
    unfold Value.assign, Value.or_, Value.rshift, Value.lshift.
    cbn [Value.val]. apply mod_mod_pow2.
  - unfold Value.assign. cbn [Value.val]. apply b2z_mod2.
Qed.

Lemma switch_CLC (s : Alu) :
  func s = AluFunc.CLC -> switch s = Some (mkDriven 0 0 0).
Proof. intros Hf. enter_arm Hf. reflexivity. Qed.

Lemma switch_CLV (s : Alu) :
  func s = AluFunc.CLV -> switch s = Some (mkDriven 0 0 0).
Proof. intros Hf. enter_arm Hf. reflexivity. Qed.

(** A code that is none of the twelve cases takes every test's [else]. *)
Lemma switch_Default (s : Alu) :
  ~ In (func s) AluFunc.cases ->
  switch s = Some (mkDriven (A s mod 2 ^ size s) 0 0).
Proof.
  intros Hf. unfold switch.
  repeat match goal with
         | |- context [if func s =? ?c then _ else _] =>
             destruct (Z.eqb_spec (func s) c) as [E | _];
             [exfalso; apply Hf; rewrite E; cbn; tauto |]
         end.
  reflexivity.
Qed.

(** Each arm drives [carry] and [overflow] with a single bit. *)
Lemma switch_bits (s : Alu) (d : Driven) :
  switch s = Some d ->
  0 <= d_carry d < 2 /\ 0 <= d_overflow d < 2.
Proof.
  assert (Hmod : forall x, 0 <= x mod 2 ^ 1 < 2)
    by (intros x; apply Z.mod_pos_bound; reflexivity).
  unfold switch. intros H.
  switch_cases;
    repeat match type of H with
           | context [Value.getitem ?x ?k] =>
               destruct (Value.getitem x k); cbn [bind] in H;
               [| discriminate]
           end;
    injection H as <-; cbn [d_carry d_overflow];
    unfold reset_carry, reset_overflow, Value.assign; split;
    first [apply Hmod | lia].
Qed.

(** ** Bits of integers *)

Lemma testbit_b2z (c : bool) (i : Z) :
  Z.testbit (Z.b2z c) i = c && (i =? 0).
Proof.
  destruct c; cbn.
  - destruct i; reflexivity.
  - apply Z.testbit_0_l.
Qed.

Lemma testbit_above (W a i : Z) :
  0 <= a < 2 ^ W -> W <= i -> Z.testbit a i = false.
Proof.
  intros Ha Hi.
  assert (0 <= W) by (destruct (Z.le_gt_cases 0 W); [assumption |];
                      rewrite Z.pow_neg_r in Ha by assumption; lia).
  rewrite <- (Z.mod_small a (2 ^ W)) by assumption.
  apply Z.mod_pow2_bits_high. lia.
Qed.

Lemma testbit_sub_borrow (W a b : Z) :
  0 <= a < 2 ^ W -> 0 <= b < 2 ^ W ->
  Z.testbit (a - b) W = (a <? b).
Proof.
  intros Ha Hb.
  assert (HW : 0 <= W) by (destruct (Z.le_gt_cases 0 W); [assumption |];
                      rewrite Z.pow_neg_r in Ha by assumption; lia).
  destruct (Z.ltb_spec a b) as [Hlt | Hge].
  - apply Z.bits_iff_neg; [| lia].
    apply Z.log2_lt_pow2; lia.
  - destruct (Z.eq_dec a b) as [-> | Hne].
    + rewrite Z.sub_diag. apply Z.testbit_0_l.
    + apply Z.bits_iff_nonneg; [| lia].
      apply Z.log2_lt_pow2; lia.
Qed.

Ltac bitwise i Hi :=
  apply Z.bits_inj'; intros i Hi;
  repeat first
    [ rewrite Z.testbit_mod_pow2 by lia
    | rewrite Z.lor_spec
    | rewrite Z.shiftl_spec by lia
    | rewrite Z.shiftr_spec by lia
    | rewrite testbit_b2z ].

Lemma ROL_then_ROR (W a : Z) :
  1 <= W -> 0 <= a < 2 ^ W ->
  let R := Z.lor (Z.shiftl a 1) (Z.b2z (Z.testbit a (W - 1))) mod 2 ^ W in
  Z.lor (Z.shiftr R 1) (Z.shiftl (Z.b2z (Z.testbit R 0)) (W - 1) mod 2 ^ W)
  mod 2 ^ W = a.
Proof.
  intros HW Ha R. subst R. bitwise i Hi.
  rewrite (Z.testbit_neg_r a (0 - 1)) by lia.
  replace (i + 1 - 1) with i by lia.
  replace (0 <? W) with true by (symmetry; apply Z.ltb_lt; lia).
  destruct (Z.ltb_spec i W) as [Hlt | Hge].
  - destruct (Z.eq_dec i (W - 1)) as [-> | Hne].
    + replace (W - 1 - (W - 1)) with 0 by lia.
      replace (W - 1 + 1 <? W) with false by (symmetry; apply Z.ltb_ge; lia).
      cbn. destruct (Z.testbit a (W - 1)); reflexivity.
    + replace (i + 1 <? W) with true by (symmetry; apply Z.ltb_lt; lia).
      replace (i + 1 =? 0) with false by (symmetry; apply Z.eqb_neq; lia).
      replace (i - (W - 1) =? 0) with false by (symmetry; apply Z.eqb_neq; lia).
      cbn. destruct (Z.testbit a i), (Z.testbit a (W - 1)); reflexivity.
  - cbn. symmetry. now apply (testbit_above W).
Qed.

(** The carry fed to bit [W - 1] fits in [W] bits. *)
Lemma lor_shiftl_bit_mod (W x c : Z) :
  1 <= W -> 0 <= c < 2 ->
  Z.lor x (Z.shiftl c (W - 1) mod 2 ^ W) mod 2 ^ W
  = Z.lor x (Z.shiftl c (W - 1)) mod 2 ^ W.
Proof.
  intros HW Hc. f_equal. f_equal. apply Z.mod_small.
  rewrite Z.shiftl_mul_pow2 by lia.
  replace (2 ^ W) with (2 * 2 ^ (W - 1))
    by (rewrite <- Z.pow_succ_r by lia; f_equal; lia).
  assert (0 < 2 ^ (W - 1)) by (apply Z.pow_pos_nonneg; lia). nia.
Qed.

Lemma ASR_fits (W a : Z) (c : bool) :
  1 <= W ->
  Z.lor (Z.shiftr (a mod 2 ^ (W - 1)) 1) (Z.shiftl (Z.b2z c) (W - 1))
  mod 2 ^ W
  = Z.lor (Z.shiftr (a mod 2 ^ (W - 1)) 1) (Z.shiftl (Z.b2z c) (W - 1)).
Proof.
  intros HW. bitwise i Hi.
  destruct (Z.ltb_spec i W) as [Hlt | Hge]; [reflexivity |].
  replace (i + 1 <? W - 1) with false by (symmetry; apply Z.ltb_ge; lia).
  replace (i - (W - 1) =? 0) with false by (symmetry; apply Z.eqb_neq; lia).
  cbn. now rewrite andb_false_r.
Qed.

Lemma ASR_bits (W a : Z) (c : bool) (i : Z) :
  1 <= W -> 0 <= i ->
  Z.testbit
    (Z.lor (Z.shiftr (a mod 2 ^ (W - 1)) 1) (Z.shiftl (Z.b2z c) (W - 1))) i
  = ((i + 1 <? W - 1) && Z.testbit a (i + 1)) || (c && (i =? W - 1)).
Proof.
  intros HW Hi.
  rewrite Z.lor_spec, Z.shiftr_spec, Z.shiftl_spec, testbit_b2z,
    Z.testbit_mod_pow2 by lia.
  do 2 f_equal.
  destruct (Z.eqb_spec (i - (W - 1)) 0), (Z.eqb_spec i (W - 1)); lia || reflexivity.
Qed.

Lemma lnot_mod_pow2 (W a : Z) :
  0 <= W -> 0 <= a < 2 ^ W -> Z.lnot a mod 2 ^ W = 2 ^ W - 1 - a.
Proof.
  intros HW Ha. unfold Z.lnot. symmetry.
  apply Z.mod_unique with (q := -1); lia.
Qed.

Lemma opp_mod_pow2_neq (W a : Z) :
  1 <= W -> 0 <= a < 2 ^ W -> 2 ^ W - 1 - a <> (- a) mod 2 ^ W.
Proof.
  intros HW Ha.
  assert (2 <= 2 ^ W) by (change 2 with (2 ^ 1) at 1; apply Z.pow_le_mono_r; lia).
  destruct (Z.eq_dec a 0) as [-> | Hne].
  - change (- 0) with 0. rewrite Z.mod_0_l by lia. lia.
  - rewrite <- (Z.mod_unique (- a) (2 ^ W) (-1) (2 ^ W - a)) by lia. lia.
Qed.

(** ** Stable states *)

(** In a stable state every driven signal holds what a pass computes from
    that very state. *)
Lemma stable_fields (r : Alu) :
  1 <= size r -> stable r ->
  exists d, switch r = Some d
    /\ OUT r = d_OUT d /\ carry r = d_carry d /\ overflow r = d_overflow d
    /\ zero r = Z.b2z (OUT r =? 0)
    /\ negative r = Z.b2z (Z.testbit (OUT r) (size r - 1))
    /\ signed r = Z.lxor (negative r) (overflow r).
Proof.
  intros HW Hst. apply (stable_next r HW) in Hst.
  destruct (next_unfold r HW) as (d & Hd & Hn). rewrite Hst in Hn.
  exists d. split; [exact Hd |].
  pose proof (f_equal OUT Hn) as HO. pose proof (f_equal carry Hn) as HC.
  pose proof (f_equal overflow Hn) as HV. pose proof (f_equal zero Hn) as HZ.
  pose proof (f_equal negative Hn) as HN.
  pose proof (f_equal signed Hn) as HS. cbn in HO, HC, HV, HZ, HN, HS.
  repeat split; try assumption.
  rewrite HS at 1. destruct (switch_bits r d Hd) as [_ Hov].
  rewrite HN, HV.
  assert (Hc : d_overflow d = 0 \/ d_overflow d = 1) by lia.
  destruct Hc as [-> | ->];
    destruct (Z.testbit (OUT r) (size r - 1)); reflexivity.
Qed.

(** Driving an instance and letting it settle ends in a stable state that
    holds the driven inputs. *)
Lemma run_settles (fuel : nat) (s : Alu) (a b f : Z) :
  1 <= size s -> (5 <= fuel)%nat ->
  exists r, run fuel s a b f = Some r /\ stable r /\ size r = size s
    /\ A r = a mod 2 ^ size s /\ B r = b mod 2 ^ size s
    /\ func r = f mod 2 ^ AluFunc.width.
Proof.
  intros HW Hfuel. unfold run.
  destruct (settle_converges fuel (drive s a b f)) as (r & Hr & Hst & Hi);
    [exact HW | exact Hfuel |].
  exists r. destruct Hi as (H1 & H2 & H3 & H4). cbn in H1, H2, H3, H4.
  repeat split; assumption.
Qed.

Lemma Alu_init_nonneg (W : Z) :
  0 <= W -> Alu_init W = Some (mkAlu W 0 0 0 0 0 0 0 0 0).
Proof.
  intros HW. unfold Alu_init, Value.Shape.
  replace (W <? 0) with false by (symmetry; apply Z.ltb_ge; lia).
  reflexivity.
Qed.

Lemma evaluate_settles (fuel : nat) (W a b f : Z) :
  1 <= W -> (5 <= fuel)%nat ->
  exists r, evaluate fuel W a b f = Some r /\ stable r /\ size r = W
    /\ A r = a mod 2 ^ W /\ B r = b mod 2 ^ W
    /\ func r = f mod 2 ^ AluFunc.width.
Proof.
  intros HW Hfuel. unfold evaluate.
  rewrite Alu_init_nonneg by lia. cbn [bind].
  apply (run_settles fuel (mkAlu W 0 0 0 0 0 0 0 0 0) a b f HW Hfuel).
Qed.

(** ** Addition and subtraction *)

(** C1. For ADD with width [W] and operands in [[0, 2^W)], the evaluation
    returns with [OUT = (a + b) mod 2^W] and [carry] bit [W] of [a + b];
    [overflow] is a bit, set exactly when [a] and [b] have equal sign bits
    (bit [W - 1]) and the sign bit of [OUT] differs from theirs; and
    [negative] is the sign bit of [OUT]. *)
Theorem ADD_spec (fuel : nat) (W a b : Z) :
  (5 <= fuel)%nat -> 1 <= W -> 0 <= a < 2 ^ W -> 0 <= b < 2 ^ W ->
  exists r, evaluate fuel W a b AluFunc.ADD = Some r
    /\ OUT r = (a + b) mod 2 ^ W
    /\ carry r = Z.b2z (Z.testbit (a + b) W)
    /\ (overflow r = 1 <->
        Z.testbit a (W - 1) = Z.testbit b (W - 1)
        /\ Z.testbit (OUT r) (W - 1) <> Z.testbit a (W - 1))
    /\ (overflow r = 0 \/ overflow r = 1)
    /\ negative r = Z.b2z (Z.testbit (OUT r) (W - 1)).
Proof.
  intros Hfuel HW Ha Hb.
  destruct (evaluate_settles fuel W a b AluFunc.ADD HW Hfuel)
    as (r & He & Hst & Hsz & HA & HB & Hf).
  rewrite Z.mod_small in HA, HB by assumption.
  change (func r = AluFunc.ADD) in Hf.
  assert (HWr : 1 <= size r) by lia.
  destruct (stable_fields r HWr Hst)
    as (d & Hd & HO & HC & HV & _ & HN & _).
  rewrite (switch_ADD r HWr Hf) in Hd. injection Hd as <-.
  cbn [d_OUT d_carry d_overflow] in HO, HC, HV.
  rewrite Hsz, HA, HB in *.
  exists r. repeat split; try assumption.
  - rewrite HV in H.
    destruct (Z.testbit a (W - 1)), (Z.testbit b (W - 1)),
      (Z.testbit (OUT r) (W - 1)); cbn in H; congruence.
  - rewrite HV in H.
    destruct (Z.testbit a (W - 1)), (Z.testbit b (W - 1)),
      (Z.testbit (OUT r) (W - 1)); cbn in H; congruence.
  - intros [H1 H2]. rewrite HV.
    destruct (Z.testbit a (W - 1)), (Z.testbit b (W - 1)),
      (Z.testbit (OUT r) (W - 1)); cbn; congruence.
  - rewrite HV.
    destruct (Bool.eqb _ _ && xorb _ _); cbn; auto.
Qed.

(** The instance of C1 the specification gives: for [W = 8],
    [a = 0b01111111] and [b = 0b00000001] the result is
    [OUT = 0b10000000], [carry = 0], [overflow = 1], [negative = 1]. *)
Lemma ADD_spec_witness :
  exists r, evaluate 5 8 127 1 AluFunc.ADD = Some r
    /\ OUT r = 128 /\ carry r = 0 /\ overflow r = 1 /\ negative r = 1.
Proof.
  destruct (ADD_spec 5 8 127 1) as (r & He & HO & HC & HV & _ & HN);
    [lia | lia | cbn; lia | cbn; lia |].
  exists r. change ((127 + 1) mod 2 ^ 8) with 128 in HO.
  rewrite HO in HV, HN.
  repeat split; try assumption.
  apply HV. split; cbn; congruence.
Defined.

(** C2. For SUB with width [W] and operands in [[0, 2^W)], the evaluation
    returns with [OUT = (a - b) mod 2^W] and [carry] bit [W] of the
    two's-complement difference [a - b], which is the borrow [a < b];
    [overflow] is a bit, set exactly when [a] and [b] have differing sign
    bits and the sign bit of [OUT] differs from that of [a]. *)
Theorem SUB_spec (fuel : nat) (W a b : Z) :
  (5 <= fuel)%nat -> 1 <= W -> 0 <= a < 2 ^ W -> 0 <= b < 2 ^ W ->
  exists r, evaluate fuel W a b AluFunc.SUB = Some r
    /\ OUT r = (a - b) mod 2 ^ W
    /\ carry r = Z.b2z (Z.testbit (a - b) W)
    /\ carry r = Z.b2z (a <? b)
    /\ (overflow r = 1 <->
        Z.testbit a (W - 1) <> Z.testbit b (W - 1)
        /\ Z.testbit (OUT r) (W - 1) <> Z.testbit a (W - 1))
    /\ (overflow r = 0 \/ overflow r = 1).
Proof.
  intros Hfuel HW Ha Hb.
  destruct (evaluate_settles fuel W a b AluFunc.SUB HW Hfuel)
    as (r & He & Hst & Hsz & HA & HB & Hf).
  rewrite Z.mod_small in HA, HB by assumption.
  change (func r = AluFunc.SUB) in Hf.
  assert (HWr : 1 <= size r) by lia.
  destruct (stable_fields r HWr Hst)
    as (d & Hd & HO & HC & HV & _).
  rewrite (switch_SUB r HWr Hf) in Hd. injection Hd as <-.
  cbn [d_OUT d_carry d_overflow] in HO, HC, HV.
  rewrite Hsz, HA, HB in *.
  exists r. split; [exact He |]. split; [exact HO |].
  split; [exact HC |].
  split; [rewrite HC; now rewrite (testbit_sub_borrow W a b) |].
  rewrite HV.
  destruct (Z.testbit a (W - 1)), (Z.testbit b (W - 1)),
    (Z.testbit (OUT r) (W - 1)); cbn; intuition congruence.
Qed.

(** C2 at the test bench's operands: [0x01 - 0x55] borrows. *)
Lemma SUB_spec_witness :
  exists r, evaluate 5 8 1 85 AluFunc.SUB = Some r
    /\ OUT r = 172 /\ carry r = 1 /\ overflow r <> 1.
Proof.
  destruct (SUB_spec 5 8 1 85) as (r & He & HO & _ & HC & HV & _);
    [lia | lia | cbn; lia | cbn; lia |].
  exists r. change ((1 - 85) mod 2 ^ 8) with 172 in HO.
  repeat split; try assumption.
  intros H1. apply HV in H1. destruct H1 as [H1 _]. now apply H1.
Defined.

(** ** The derived flags *)

(** C3. For every operation code and all operands, the flags of the
    result are derived from the [OUT] and [overflow] of that same result:
    [zero] says whether [OUT] is 0, [negative] is bit [W - 1] of [OUT],
    and [signed] is [negative] xor [overflow]. *)
Theorem derived_flags (fuel : nat) (W a b f : Z) :
  (5 <= fuel)%nat -> 1 <= W ->
  exists r, evaluate fuel W a b f = Some r
    /\ zero r = Z.b2z (OUT r =? 0)
    /\ negative r = Z.b2z (Z.testbit (OUT r) (W - 1))
    /\ signed r = Z.lxor (negative r) (overflow r).
Proof.
  intros Hfuel HW.
  destruct (evaluate_settles fuel W a b f HW Hfuel)
    as (r & He & Hst & Hsz & _).
  assert (HWr : 1 <= size r) by lia.
  destruct (stable_fields r HWr Hst) as (d & _ & _ & _ & _ & HZ & HN & HS).
  rewrite Hsz in HN. exists r. repeat split; assumption.
Qed.

Lemma derived_flags_witness :
  exists r, evaluate 5 8 127 1 AluFunc.ADD = Some r
    /\ zero r = Z.b2z (OUT r =? 0)
    /\ negative r = Z.b2z (Z.testbit (OUT r) (8 - 1))
    /\ signed r = Z.lxor (negative r) (overflow r).
Proof. apply (derived_flags 5 8 127 1 AluFunc.ADD); lia. Defined.

(** ** Rotates *)

(** What a settled ROL holds, whatever the instance held before. *)
Lemma ROL_settled (fuel : nat) (s : Alu) (a b : Z) :
  (5 <= fuel)%nat -> 1 <= size s -> 0 <= a < 2 ^ size s ->
  exists r, run fuel s a b AluFunc.ROL = Some r
    /\ size r = size s
    /\ OUT r = Z.lor (Z.shiftl a 1) (carry r) mod 2 ^ size s
    /\ carry r = Z.b2z (Z.testbit a (size s - 1)).
Proof.
  intros Hfuel HW Ha.
  destruct (run_settles fuel s a b AluFunc.ROL HW Hfuel)
    as (r & He & Hst & Hsz & HA & _ & Hf).
  rewrite Z.mod_small in HA by assumption.
  change (func r = AluFunc.ROL) in Hf.
  assert (HWr : 1 <= size r) by lia.
  destruct (stable_fields r HWr Hst) as (d & Hd & HO & HC & _).
  rewrite (switch_ROL r HWr Hf) in Hd. injection Hd as <-.
  cbn [d_OUT d_carry] in HO, HC. rewrite Hsz, HA in *.
  exists r. repeat split; assumption.
Qed.

(** What a settled ROR holds, whatever the instance held before. *)
Lemma ROR_settled (fuel : nat) (s : Alu) (a b : Z) :
  (5 <= fuel)%nat -> 1 <= size s -> 0 <= a < 2 ^ size s ->
  exists r, run fuel s a b AluFunc.ROR = Some r
    /\ size r = size s
    /\ OUT r
       = Z.lor (Z.shiftr a 1) (Z.shiftl (carry r) (size s - 1)) mod 2 ^ size s
    /\ carry r = Z.b2z (Z.testbit a 0).
Proof.
  intros Hfuel HW Ha.
  destruct (run_settles fuel s a b AluFunc.ROR HW Hfuel)
    as (r & He & Hst & Hsz & HA & _ & Hf).
  rewrite Z.mod_small in HA by assumption.
  change (func r = AluFunc.ROR) in Hf.
  assert (HWr : 1 <= size r) by lia.
  destruct (stable_fields r HWr Hst) as (d & Hd & HO & HC & _).
  rewrite (switch_ROR r HWr Hf) in Hd. injection Hd as <-.
  cbn [d_OUT d_carry] in HO, HC. rewrite Hsz, HA in *.
  rewrite lor_shiftl_bit_mod in HO
    by (try assumption; rewrite HC; apply b2z_range).
  exists r. repeat split; assumption.
Qed.

(** C4, as the code has it.  [Alu] has no carry input: the carry that ROL
    and ROR read is the carry signal the same arm drives.  So whatever the
    instance held before, ROL gives [OUT = ((a << 1) | c) mod 2^W] where
    [c] is the outgoing carry, bit [W - 1] of [a], and ROR gives
    [OUT = ((a >> 1) | (c << (W - 1))) mod 2^W] where [c] is the outgoing
    carry, bit 0 of [a]: both are rotates of [a] alone. *)
Theorem rotate_spec (fuel : nat) (s : Alu) (a b : Z) :
  (5 <= fuel)%nat -> 1 <= size s -> 0 <= a < 2 ^ size s ->
  (exists r, run fuel s a b AluFunc.ROL = Some r
     /\ carry r = Z.b2z (Z.testbit a (size s - 1))
     /\ OUT r = ROL_through_carry (size s) a (carry r))
  /\ (exists r, run fuel s a b AluFunc.ROR = Some r
        /\ carry r = Z.b2z (Z.testbit a 0)
        /\ OUT r = ROR_through_carry (size s) a (carry r)).
Proof.
  intros Hfuel HW Ha. split.
  - destruct (ROL_settled fuel s a b Hfuel HW Ha) as (r & He & _ & HO & HC).
    exists r. repeat split; assumption.
  - destruct (ROR_settled fuel s a b Hfuel HW Ha) as (r & He & _ & HO & HC).
    exists r. repeat split; assumption.
Qed.

(** C4 on an instance that holds carry 1 from an earlier subtraction:
    rotating [0b00000001] left gives [0b00000010], the bit that enters is
    bit 7 of the operand and not the carry held. *)
Lemma rotate_spec_witness :
  (exists r, run 5 (mkAlu 8 1 85 172 2 0 1 1 0 1) 1 0 AluFunc.ROL = Some r
     /\ carry r = 0 /\ OUT r = 2)
  /\ (exists r, run 5 (mkAlu 8 1 85 172 2 0 1 1 0 1) 1 0 AluFunc.ROR = Some r
        /\ carry r = 1 /\ OUT r = 128).
Proof.
  destruct (rotate_spec 5 (mkAlu 8 1 85 172 2 0 1 1 0 1) 1 0)
    as [(r1 & E1 & C1 & O1) (r2 & E2 & C2 & O2)];
    [lia | cbn; lia | cbn; lia |].
  cbn in C1, C2. rewrite C1 in O1. rewrite C2 in O2.
  split; [exists r1 | exists r2]; repeat split; assumption.
Defined.

(** C4 as the specification words it fails: on a fresh instance, whose
    carry holds 0, ROL of [0b10000000] gives 1 where a rotate through the
    carry held would give 0, and ROR of [0b00000001] gives [0b10000000]
    where it would give 0. *)
Lemma rotate_reads_outgoing_carry :
  exists s r1 r2,
    Alu_init 8 = Some s
    /\ run 5 s 128 0 AluFunc.ROL = Some r1
    /\ OUT r1 <> ROL_through_carry 8 128 (carry s)
    /\ run 5 s 1 0 AluFunc.ROR = Some r2
    /\ OUT r2 <> ROR_through_carry 8 1 (carry s).
Proof.
  exists (mkAlu 8 0 0 0 0 0 0 0 0 0), (mkAlu 8 128 0 1 11 0 1 0 0 0),
    (mkAlu 8 1 0 128 12 0 1 1 0 1).
  split; [vm_compute; reflexivity |].
  split; [vm_compute; reflexivity |].
  split; [vm_compute; discriminate |].
  split; [vm_compute; reflexivity |].
  vm_compute; discriminate.
Qed.

(** C5. Applying ROL to any operand [a] in [[0, 2^W)] and then ROR to the
    resulting [OUT], on the instance as ROL left it (so with the carry ROL
    produced), restores [a]. *)
Theorem ROL_ROR_round_trip (fuel : nat) (s : Alu) (a b b' : Z) :
  (5 <= fuel)%nat -> 1 <= size s -> 0 <= a < 2 ^ size s ->
  exists r1 r2,
    run fuel s a b AluFunc.ROL = Some r1
    /\ run fuel r1 (OUT r1) b' AluFunc.ROR = Some r2
    /\ OUT r2 = a.
Proof.
  intros Hfuel HW Ha.
  destruct (ROL_settled fuel s a b Hfuel HW Ha)
    as (r1 & E1 & S1 & O1 & C1).
  assert (HW1 : 1 <= size r1) by lia.
  assert (Hrange : 0 <= OUT r1 < 2 ^ size r1).
  { rewrite O1, S1. apply Z.mod_pos_bound. apply Z.pow_pos_nonneg; lia. }
  destruct (ROR_settled fuel r1 (OUT r1) b' Hfuel HW1 Hrange)
    as (r2 & E2 & S2 & O2 & C2).
  exists r1, r2. split; [exact E1 |]. split; [exact E2 |].
  rewrite O2, C2, S1, O1, C1.
  rewrite <- lor_shiftl_bit_mod by (try assumption; apply b2z_range).
  now apply ROL_then_ROR.
Qed.

Lemma ROL_ROR_round_trip_witness :
  exists r1 r2,
    run 5 (mkAlu 8 0 0 0 0 0 0 0 0 0) 150 0 AluFunc.ROL = Some r1
    /\ run 5 r1 (OUT r1) 0 AluFunc.ROR = Some r2
    /\ OUT r2 = 150.
Proof.
  apply (ROL_ROR_round_trip 5 (mkAlu 8 0 0 0 0 0 0 0 0 0) 150 0 0);
    [lia | cbn; lia | cbn; lia].
Defined.

(** ** Operations that leave [OUT] unassigned, and the default *)

(** C6. For CLC and CLV the arm does not assign [OUT], so [OUT] takes its
    reset value 0 for all operands and whatever the instance held before
    (it is neither [a] nor the earlier [OUT]); so [zero = 1] and
    [negative = 0]; CLC gives [carry = 0] and CLV gives [overflow = 0]. *)
Theorem CLC_CLV_spec (fuel : nat) (s : Alu) (a b : Z) :
  (5 <= fuel)%nat -> 1 <= size s ->
  (exists r, run fuel s a b AluFunc.CLC = Some r
     /\ OUT r = reset_OUT /\ OUT r = 0
     /\ zero r = 1 /\ negative r = 0 /\ carry r = 0)
  /\ (exists r, run fuel s a b AluFunc.CLV = Some r
        /\ OUT r = reset_OUT /\ OUT r = 0
        /\ zero r = 1 /\ negative r = 0 /\ overflow r = 0).
Proof.
  intros Hfuel HW. split.
  - destruct (run_settles fuel s a b AluFunc.CLC HW Hfuel)
      as (r & He & Hst & Hsz & _ & _ & Hf).
    change (func r = AluFunc.CLC) in Hf.
    assert (HWr : 1 <= size r) by lia.
    destruct (stable_fields r HWr Hst)
      as (d & Hd & HO & HC & HV & HZ & HN & _).
    rewrite (switch_CLC r Hf) in Hd. injection Hd as <-.
    cbn [d_OUT d_carry] in HO, HC.
    rewrite HO in HZ, HN. rewrite Z.testbit_0_l in HN.
    exists r. repeat split; assumption.
  - destruct (run_settles fuel s a b AluFunc.CLV HW Hfuel)
      as (r & He & Hst & Hsz & _ & _ & Hf).
    change (func r = AluFunc.CLV) in Hf.
    assert (HWr : 1 <= size r) by lia.
    destruct (stable_fields r HWr Hst)
      as (d & Hd & HO & HC & HV & HZ & HN & _).
    rewrite (switch_CLV r Hf) in Hd. injection Hd as <-.
    cbn [d_OUT d_overflow] in HO, HV.
    rewrite HO in HZ, HN. rewrite Z.testbit_0_l in HN.
    exists r. repeat split; assumption.
Qed.

(** C6 on the instance as the test bench's first addition leaves it,
    with [OUT = 0x56]: CLC and CLV bring [OUT] back to 0. *)
Lemma CLC_CLV_spec_witness :
  (exists r, run 5 (mkAlu 8 1 85 86 1 0 0 0 0 0) 1 85 AluFunc.CLC = Some r
     /\ OUT r = reset_OUT /\ OUT r = 0
     /\ zero r = 1 /\ negative r = 0 /\ carry r = 0)
  /\ (exists r, run 5 (mkAlu 8 1 85 86 1 0 0 0 0 0) 1 85 AluFunc.CLV = Some r
        /\ OUT r = reset_OUT /\ OUT r = 0
        /\ zero r = 1 /\ negative r = 0 /\ overflow r = 0).
Proof.
  apply (CLC_CLV_spec 5 (mkAlu 8 1 85 86 1 0 0 0 0 0) 1 85);
    [lia | cbn; lia].
Defined.

(** C7. For every operation code the signal can hold that has no case of
    its own, NONE included, the evaluation returns, with [OUT = a],
    [carry = 0] and [overflow = 0]. *)
Theorem Default_spec (fuel : nat) (W a b f : Z) :
  (5 <= fuel)%nat -> 1 <= W -> 0 <= a < 2 ^ W ->
  0 <= f < 2 ^ AluFunc.width -> ~ In f AluFunc.cases ->
  exists r, evaluate fuel W a b f = Some r
    /\ OUT r = a /\ carry r = 0 /\ overflow r = 0.
Proof.
  intros Hfuel HW Ha Hf Hnone.
  destruct (evaluate_settles fuel W a b f HW Hfuel)
    as (r & He & Hst & Hsz & HA & _ & Hfr).
  rewrite Z.mod_small in HA, Hfr by assumption.
  assert (HWr : 1 <= size r) by lia.
  destruct (stable_fields r HWr Hst) as (d & Hd & HO & HC & HV & _).
  rewrite switch_Default in Hd by (rewrite Hfr; exact Hnone).
  injection Hd as <-. cbn [d_OUT d_carry d_overflow] in HO, HC, HV.
  rewrite Hsz, HA, Z.mod_small in HO by assumption.
  exists r. repeat split; assumption.
Qed.

(** C7 at NONE and at the unlisted code 5. *)
Lemma Default_spec_witness :
  (exists r, evaluate 5 8 85 1 AluFunc.NONE = Some r
     /\ OUT r = 85 /\ carry r = 0 /\ overflow r = 0)
  /\ (exists r, evaluate 5 8 85 1 5 = Some r
        /\ OUT r = 85 /\ carry r = 0 /\ overflow r = 0).
Proof.
  split.
  - apply (Default_spec 5 8 85 1 AluFunc.NONE);
      [lia | lia | cbn; lia | vm_compute; intuition discriminate
      | vm_compute; intuition discriminate].
  - apply (Default_spec 5 8 85 1 5);
      [lia | lia | cbn; lia | vm_compute; intuition discriminate
      | vm_compute; intuition discriminate].
Defined.

(** ** NEG and ASR *)

(** C8. For NEG and every operand in [[0, 2^W)], [OUT] is the bitwise
    complement [(~a) mod 2^W], that is [2^W - 1 - a], which is never the
    arithmetic negation [(-a) mod 2^W]; [carry = 0] and [overflow = 0]. *)
Theorem NEG_spec (fuel : nat) (W a b : Z) :
  (5 <= fuel)%nat -> 1 <= W -> 0 <= a < 2 ^ W ->
  exists r, evaluate fuel W a b AluFunc.NEG = Some r
    /\ OUT r = Z.lnot a mod 2 ^ W
    /\ OUT r = 2 ^ W - 1 - a
    /\ OUT r <> (- a) mod 2 ^ W
    /\ carry r = 0 /\ overflow r = 0.
Proof.
  intros Hfuel HW Ha.
  destruct (evaluate_settles fuel W a b AluFunc.NEG HW Hfuel)
    as (r & He & Hst & Hsz & HA & _ & Hf).
  rewrite Z.mod_small in HA by assumption.
  change (func r = AluFunc.NEG) in Hf.
  assert (HWr : 1 <= size r) by lia.
  destruct (stable_fields r HWr Hst) as (d & Hd & HO & HC & HV & _).
  rewrite (switch_NEG r Hf) in Hd. injection Hd as <-.
  cbn [d_OUT d_carry d_overflow] in HO, HC, HV. rewrite Hsz, HA in HO.
  assert (HO' : OUT r = 2 ^ W - 1 - a)
    by (rewrite HO; apply lnot_mod_pow2; lia).
  exists r. repeat split; try assumption.
  rewrite HO'. now apply opp_mod_pow2_neq.
Qed.

Lemma NEG_spec_witness :
  exists r, evaluate 5 8 1 85 AluFunc.NEG = Some r
    /\ OUT r = 254 /\ OUT r <> 255 /\ carry r = 0 /\ overflow r = 0.
Proof.
  destruct (NEG_spec 5 8 1 85) as (r & He & _ & HO & HX & HC & HV);
    [lia | lia | cbn; lia |].
  exists r. repeat split; assumption.
Defined.

(** C9. For ASR and every operand in [[0, 2^W)], [OUT] is bits
    [0 .. W - 2] of [a] shifted right by one, with bit [W - 1] set to bit
    [W - 1] of [a]; the outgoing carry is bit 0 of [a]; so if bit [W - 1]
    of [a] is set, bit [W - 1] of [OUT] is set.  Bit by bit: below
    [W - 1], bit [i] of [OUT] is bit [i + 1] of [a] when [i + 1 <= W - 2],
    and 0 otherwise. *)
Theorem ASR_spec (fuel : nat) (W a b : Z) :
  (5 <= fuel)%nat -> 1 <= W -> 0 <= a < 2 ^ W ->
  exists r, evaluate fuel W a b AluFunc.ASR = Some r
    /\ OUT r = Z.lor (Z.shiftr (a mod 2 ^ (W - 1)) 1)
                     (Z.shiftl (Z.b2z (Z.testbit a (W - 1))) (W - 1))
    /\ carry r = Z.b2z (Z.testbit a 0)
    /\ Z.testbit (OUT r) (W - 1) = Z.testbit a (W - 1)
    /\ (Z.testbit a (W - 1) = true -> Z.testbit (OUT r) (W - 1) = true)
    /\ (forall i, 0 <= i < W - 1 ->
          Z.testbit (OUT r) i = (i + 1 <? W - 1) && Z.testbit a (i + 1)).
Proof.
  intros Hfuel HW Ha.
  destruct (evaluate_settles fuel W a b AluFunc.ASR HW Hfuel)
    as (r & He & Hst & Hsz & HA & _ & Hf).
  rewrite Z.mod_small in HA by assumption.
  change (func r = AluFunc.ASR) in Hf.
  assert (HWr : 1 <= size r) by lia.
  destruct (stable_fields r HWr Hst) as (d & Hd & HO & HC & _).
  rewrite (switch_ASR r HWr Hf) in Hd. injection Hd as <-.
  cbn [d_OUT d_carry] in HO, HC. rewrite Hsz, HA in *.
  rewrite ASR_fits in HO by assumption.
  assert (Htop : Z.testbit (OUT r) (W - 1) = Z.testbit a (W - 1)).
  { rewrite HO, ASR_bits by lia.
    replace (W - 1 + 1 <? W - 1) with false
      by (symmetry; apply Z.ltb_ge; lia).
    rewrite Z.eqb_refl. cbn. apply andb_true_r. }
  exists r. split; [exact He |]. split; [exact HO |].
  split; [exact HC |]. split; [exact Htop |].
  split; [intros Hs; now rewrite Htop |].
  intros i Hi. rewrite HO, ASR_bits by lia.
  replace (i =? W - 1) with false by (symmetry; apply Z.eqb_neq; lia).
  now rewrite andb_false_r, orb_false_r.
Qed.

(** C9 at [0b10000101]: the sign bit stays, bit 6 is left empty. *)
Lemma ASR_spec_witness :
  exists r, evaluate 5 8 133 0 AluFunc.ASR = Some r
    /\ OUT r = 130 /\ carry r = 1 /\ Z.testbit (OUT r) 7 = true.
Proof.
  destruct (ASR_spec 5 8 133 0) as (r & He & HO & HC & _ & HS & _);
    [lia | lia | cbn; lia |].
  exists r. repeat split; try assumption.
  now apply HS.
Defined.

(** ** Construction *)

(** C10, as the code has it.  [Alu.__init__] checks nothing itself; the
    only rejection at construction is [Signal]'s, of a negative width.
    Width 0 is constructed; it is rejected when the instance is
    elaborated, where bit [W - 1] is out of range, so still before any
    evaluation.  From width 1 on both succeed. *)
Theorem width_check (W : Z) :
  (Alu_init W = None <-> W < 0)
  /\ ((s <- Alu_init W ;; elaborate s) = None <-> W < 1).
Proof.
  destruct (Z.lt_ge_cases W 0) as [Hneg | Hpos].
  - assert (E : Alu_init W = None).
    { unfold Alu_init, Value.Shape.
      replace (W <? 0) with true by (symmetry; apply Z.ltb_lt; lia).
      reflexivity. }
    rewrite E. cbn [bind]. split; split; intros; lia || reflexivity.
  - rewrite (Alu_init_nonneg W Hpos). cbn [bind].
    split; [split; [discriminate | lia] |].
    destruct (Z.eq_dec W 0) as [-> | Hne].
    + split; [lia | intros _]. unfold elaborate. cbn [size OUT].
      rewrite getitem_out_of_range by (cbn; lia). reflexivity.
    + destruct (elaborate_total (mkAlu W 0 0 0 0 0 0 0 0 0)) as [t ->];
        [cbn; lia |].
      split; [discriminate | lia].
Qed.

(** C10 as the specification words it fails: width 0 is below 1 and the
    constructor accepts it. *)
Lemma Alu_init_accepts_width_0 : 0 < 1 /\ Alu_init 0 <> None.
Proof. split; [lia | vm_compute; discriminate]. Qed.

(** * Further properties of the code *)

(** ** The remaining arms *)

Lemma switch_AND (s : Alu) :
  func s = AluFunc.AND ->
  switch s = Some (mkDriven (Z.land (A s) (B s) mod 2 ^ size s) 0 0).
Proof. intros Hf. enter_arm Hf. reflexivity. Qed.

Lemma switch_OR (s : Alu) :
  func s = AluFunc.OR ->
  switch s = Some (mkDriven (Z.lor (A s) (B s) mod 2 ^ size s) 0 0).
Proof. intros Hf. enter_arm Hf. reflexivity. Qed.

Lemma switch_LSL (s : Alu) :
  1 <= size s -> func s = AluFunc.LSL ->
  switch s
  = Some (mkDriven (Z.shiftl (A s) 1 mod 2 ^ size s)
            (Z.b2z (Z.testbit (A s) (size s - 1))) 0).
Proof.
  intros HW Hf. enter_arm Hf. do 2 f_equal.
  - rewrite slice_to_low
      by (unfold Value.lshift; cbn [Value.width]; rewrite bits_for_1; lia).
    unfold Value.assign, Value.lshift. cbn [Value.val]. apply mod_mod_pow2.
  - unfold Value.assign. cbn [Value.val]. apply b2z_mod2.
Qed.

Lemma switch_LSR (s : Alu) :
  1 <= size s -> func s = AluFunc.LSR ->
  switch s
  = Some (mkDriven (Z.shiftr (A s) 1 mod 2 ^ size s)
            (Z.b2z (Z.testbit (A s) 0)) 0).
Proof.
  intros HW Hf. enter_arm Hf. do 2 f_equal.
  - rewrite slice_to_low by (unfold Value.rshift; cbn [Value.width]; lia).
    unfold Value.assign, Value.rshift. cbn [Value.val]. apply mod_mod_pow2.
  - unfold Value.assign. cbn [Value.val]. apply b2z_mod2.
Qed.

(** Every arm drives [OUT] with a word of the instance's width. *)
Lemma switch_OUT_range (s : Alu) (d : Driven) :
  0 <= size s -> switch s = Some d -> 0 <= d_OUT d < 2 ^ size s.
Proof.
  intros HW.
  assert (Hpos : 0 < 2 ^ size s) by (apply Z.pow_pos_nonneg; lia).
  assert (Hmod : forall x, 0 <= x mod 2 ^ size s < 2 ^ size s)
    by (intros x; now apply Z.mod_pos_bound).
  unfold switch. intros H.
  switch_cases;
    repeat match type of H with
           | context [Value.getitem ?x ?k] =>
               destruct (Value.getitem x k); cbn [bind] in H;
               [| discriminate]
           end;
    injection H as <-; cbn [d_OUT];
    unfold reset_OUT, Value.assign; first [apply Hmod | lia].
Qed.

(** ** Stable states are determined by the inputs *)

Lemma stable_unique (r1 r2 : Alu) :
  1 <= size r1 -> stable r1 -> stable r2 -> same_inputs r1 r2 -> r1 = r2.
Proof.
  intros HW H1 H2 Hin.
  assert (HW2 : 1 <= size r2) by (destruct Hin as [<- _]; exact HW).
  apply (stable_next r1 HW) in H1. apply (stable_next r2 HW2) in H2.
  assert (C : carry r1 = carry r2)
    by (rewrite <- H1, <- H2; now apply next_carry).
  assert (O : OUT r1 = OUT r2)
    by (rewrite <- H1, <- H2; now apply next_OUT).
  assert (V : overflow r1 = overflow r2)
    by (rewrite <- H1, <- H2; now apply next_overflow).
  assert (N : negative r1 = negative r2)
    by (rewrite <- H1, <- H2; now apply next_negative).
  assert (Z0 : zero r1 = zero r2)
    by (rewrite <- H1, <- H2; now apply next_zero).
  assert (S0 : signed r1 = signed r2)
    by (rewrite <- H1, <- H2; now apply next_signed).
  destruct Hin as (E1 & E2 & E3 & E4). now apply Alu_ext.
Qed.

(** The settled evaluation of operands and a code in range, with what
    its arm drove. *)
Lemma evaluate_arm (fuel : nat) (W a b f : Z) :
  (5 <= fuel)%nat -> 1 <= W -> 0 <= a < 2 ^ W -> 0 <= b < 2 ^ W ->
  0 <= f < 2 ^ AluFunc.width ->
  exists r d, evaluate fuel W a b f = Some r
    /\ stable r /\ size r = W /\ A r = a /\ B r = b /\ func r = f
    /\ switch r = Some d
    /\ OUT r = d_OUT d /\ carry r = d_carry d /\ overflow r = d_overflow d
    /\ zero r = Z.b2z (OUT r =? 0)
    /\ negative r = Z.b2z (Z.testbit (OUT r) (W - 1))
    /\ signed r = Z.lxor (negative r) (overflow r).
Proof.
  intros Hfuel HW Ha Hb Hf.
  destruct (evaluate_settles fuel W a b f HW Hfuel)
    as (r & He & Hst & Hsz & HA & HB & Hfr).
  rewrite Z.mod_small in HA, HB, Hfr by assumption.
  assert (HWr : 1 <= size r) by lia.
  destruct (stable_fields r HWr Hst)
    as (d & Hd & HO & HC & HV & HZ & HN & HS).
  rewrite Hsz in HN.
  exists r, d. repeat split; assumption.
Qed.

Lemma code_in_range (f : Z) :
  In f AluFunc.members -> 0 <= f < 2 ^ AluFunc.width.
Proof.
  intros H. vm_compute in H.
  repeat (destruct H as [<- | H]; [vm_compute; split; congruence |]).
  contradiction.
Qed.

(** ** More bits of integers *)

(** The top bit of a word of [n + 1] bits is its quotient by [2^n]. *)
Lemma b2z_testbit_high (n x : Z) :
  0 <= n -> 0 <= x < 2 ^ (n + 1) -> Z.b2z (Z.testbit x n) = x / 2 ^ n.
Proof.
  intros Hn Hx. rewrite Z.testbit_spec' by assumption.
  assert (Hp : 0 < 2 ^ n) by (apply Z.pow_pos_nonneg; lia).
  apply Z.mod_small. split; [apply Z.div_pos; lia |].
  apply Z.div_lt_upper_bound; [assumption |].
  rewrite Z.pow_add_r in Hx by lia. change (2 ^ 1) with 2 in Hx. lia.
Qed.

Lemma testbit_top_ge (W x : Z) :
  1 <= W -> 0 <= x < 2 ^ W -> Z.testbit x (W - 1) = (2 ^ (W - 1) <=? x).
Proof.
  intros HW Hx.
  assert (Hp : 0 < 2 ^ (W - 1)) by (apply Z.pow_pos_nonneg; lia).
  assert (HW2 : 2 ^ W = 2 * 2 ^ (W - 1))
    by (rewrite <- Z.pow_succ_r by lia; f_equal; lia).
  pose proof (b2z_testbit_high (W - 1) x) as H.
  replace (W - 1 + 1) with W in H by lia.
  specialize (H ltac:(lia) Hx).
  destruct (Z.leb_spec (2 ^ (W - 1)) x) as [Hge | Hlt].
  - assert (E : x / 2 ^ (W - 1) = 1).
    { symmetry. apply (Z.div_unique x (2 ^ (W - 1)) 1 (x - 2 ^ (W - 1))); lia. }
    rewrite E in H. destruct (Z.testbit x (W - 1)); [reflexivity | discriminate].
  - rewrite Z.div_small in H by lia.
    destruct (Z.testbit x (W - 1)); [discriminate | reflexivity].
Qed.

Lemma land_fits (W a b : Z) :
  0 <= a < 2 ^ W -> 0 <= b < 2 ^ W -> Z.land a b mod 2 ^ W = Z.land a b.
Proof.
  intros Ha Hb.
  assert (HW : 0 <= W) by (destruct (Z.le_gt_cases 0 W); [assumption |];
                           rewrite Z.pow_neg_r in Ha by assumption; lia).
  apply Z.bits_inj'. intros i Hi.
  rewrite Z.testbit_mod_pow2, Z.land_spec by assumption.
  destruct (Z.ltb_spec i W) as [Hlt | Hge]; [reflexivity |].
  now rewrite (testbit_above W a i).
Qed.

Lemma lor_fits (W a b : Z) :
  0 <= a < 2 ^ W -> 0 <= b < 2 ^ W -> Z.lor a b mod 2 ^ W = Z.lor a b.
Proof.
  intros Ha Hb.
  assert (HW : 0 <= W) by (destruct (Z.le_gt_cases 0 W); [assumption |];
                           rewrite Z.pow_neg_r in Ha by assumption; lia).
  apply Z.bits_inj'. intros i Hi.
  rewrite Z.testbit_mod_pow2, Z.lor_spec by assumption.
  destruct (Z.ltb_spec i W) as [Hlt | Hge]; [reflexivity |].
  now rewrite (testbit_above W a i), (testbit_above W b i).
Qed.

(** ** AND, OR and the logical shifts *)

(** X1. For AND and operands in [[0, 2^W)], [OUT] is the bitwise
    conjunction, no bit of it is lost to the width, and [carry] and
    [overflow] are 0. *)
Theorem AND_spec (fuel : nat) (W a b : Z) :
  (5 <= fuel)%nat -> 1 <= W -> 0 <= a < 2 ^ W -> 0 <= b < 2 ^ W ->
  exists r, evaluate fuel W a b AluFunc.AND = Some r
    /\ OUT r = Z.land a b /\ carry r = 0 /\ overflow r = 0
    /\ (zero r = 1 <-> forall i, Z.testbit a i && Z.testbit b i = false).
Proof.
  intros Hfuel HW Ha Hb.
  destruct (evaluate_arm fuel W a b AluFunc.AND Hfuel HW Ha Hb)
    as (r & d & He & _ & Hsz & HA & HB & Hf & Hd & HO & HC & HV & HZ & _);
    [now apply code_in_range; vm_compute; tauto |].
  rewrite (switch_AND r Hf) in Hd. injection Hd as <-.
  cbn [d_OUT d_carry d_overflow] in HO, HC, HV.
  rewrite Hsz, HA, HB, land_fits in HO by assumption.
  exists r. repeat split; try assumption.
  - rewrite HZ, HO. intros H i.
    destruct (Z.eqb_spec (Z.land a b) 0) as [E | E]; [| discriminate].
    rewrite <- Z.land_spec, E. apply Z.testbit_0_l.
  - intros H. rewrite HZ, HO.
    replace (Z.land a b) with 0; [reflexivity |].
    apply Z.bits_inj. intros i.
    now rewrite Z.land_spec, H, Z.testbit_0_l.
Qed.

Lemma AND_spec_witness :
  exists r, evaluate 5 8 1 85 AluFunc.AND = Some r
    /\ OUT r = 1 /\ carry r = 0 /\ overflow r = 0.
Proof.
  destruct (AND_spec 5 8 1 85) as (r & He & HO & HC & HV & _);
    [lia | lia | cbn; lia | cbn; lia |].
  exists r. repeat split; assumption.
Defined.

(** X2. For OR and operands in [[0, 2^W)], [OUT] is the bitwise
    disjunction, and [carry] and [overflow] are 0; [zero] is set exactly
    when both operands are 0. *)
Theorem OR_spec (fuel : nat) (W a b : Z) :
  (5 <= fuel)%nat -> 1 <= W -> 0 <= a < 2 ^ W -> 0 <= b < 2 ^ W ->
  exists r, evaluate fuel W a b AluFunc.OR = Some r
    /\ OUT r = Z.lor a b /\ carry r = 0 /\ overflow r = 0
    /\ (zero r = 1 <-> a = 0 /\ b = 0).
Proof.
  intros Hfuel HW Ha Hb.
  destruct (evaluate_arm fuel W a b AluFunc.OR Hfuel HW Ha Hb)
    as (r & d & He & _ & Hsz & HA & HB & Hf & Hd & HO & HC & HV & HZ & _);
    [now apply code_in_range; vm_compute; tauto |].
  rewrite (switch_OR r Hf) in Hd. injection Hd as <-.
  cbn [d_OUT d_carry d_overflow] in HO, HC, HV.
  rewrite Hsz, HA, HB, lor_fits in HO by assumption.
  exists r. repeat split; try assumption.
  - rewrite HZ, HO in H.
    destruct (Z.eqb_spec (Z.lor a b) 0) as [E | E]; [| discriminate].
    now apply Z.lor_eq_0_iff in E.
  - rewrite HZ, HO in H.
    destruct (Z.eqb_spec (Z.lor a b) 0) as [E | E]; [| discriminate].
    now apply Z.lor_eq_0_iff in E.
  - intros [-> ->]. rewrite HZ, HO. reflexivity.
Qed.

Lemma OR_spec_witness :
  exists r, evaluate 5 8 1 84 AluFunc.OR = Some r
    /\ OUT r = 85 /\ carry r = 0 /\ overflow r = 0.
Proof.
  destruct (OR_spec 5 8 1 84) as (r & He & HO & HC & HV & _);
    [lia | lia | cbn; lia | cbn; lia |].
  exists r. repeat split; assumption.
Defined.

(** X3. For LSL and an operand in [[0, 2^W)], [carry] followed by [OUT]
    is the operand doubled: [2 * a = carry * 2^W + OUT]; bit 0 of [OUT]
    is 0 and [overflow] is 0. *)
Theorem LSL_spec (fuel : nat) (W a b : Z) :
  (5 <= fuel)%nat -> 1 <= W -> 0 <= a < 2 ^ W -> 0 <= b < 2 ^ W ->
  exists r, evaluate fuel W a b AluFunc.LSL = Some r
    /\ OUT r = (2 * a) mod 2 ^ W
    /\ carry r = Z.b2z (Z.testbit a (W - 1))
    /\ 2 * a = carry r * 2 ^ W + OUT r
    /\ Z.testbit (OUT r) 0 = false
    /\ overflow r = 0.
Proof.
  intros Hfuel HW Ha Hb.
  destruct (evaluate_arm fuel W a b AluFunc.LSL Hfuel HW Ha Hb)
    as (r & d & He & _ & Hsz & HA & HB & Hf & Hd & HO & HC & HV & _);
    [now apply code_in_range; vm_compute; tauto |].
  assert (HWr : 1 <= size r) by lia.
  rewrite (switch_LSL r HWr Hf) in Hd. injection Hd as <-.
  cbn [d_OUT d_carry d_overflow] in HO, HC, HV.
  rewrite Hsz, HA in *.
  change (OUT r = Z.shiftl a 1 mod 2 ^ W) in HO.
  assert (Hp : 0 < 2 ^ (W - 1)) by (apply Z.pow_pos_nonneg; lia).
  assert (HW2 : 2 ^ W = 2 * 2 ^ (W - 1))
    by (rewrite <- Z.pow_succ_r by lia; f_equal; lia).
  assert (HO' : OUT r = (2 * a) mod 2 ^ W).
  { rewrite HO, Z.shiftl_mul_pow2 by lia. f_equal. change (2 ^ 1) with 2. lia. }
  exists r. split; [exact He |]. split; [exact HO' |].
  split; [exact HC |]. split; [| split; [| exact HV]].
  - rewrite HC, HO'.
    pose proof (b2z_testbit_high (W - 1) a) as H.
    replace (W - 1 + 1) with W in H by lia. rewrite H by lia.
    rewrite (Z.div_mod (2 * a) (2 ^ W)) at 1 by lia.
    rewrite HW2 at 1 2. rewrite Z.div_mul_cancel_l by lia. lia.
  - rewrite HO, Z.testbit_mod_pow2, Z.shiftl_spec by lia.
    rewrite (Z.testbit_neg_r a (0 - 1)) by lia. apply andb_false_r.
Qed.

Lemma LSL_spec_witness :
  exists r, evaluate 5 8 192 0 AluFunc.LSL = Some r
    /\ OUT r = 128 /\ carry r = 1 /\ overflow r = 0.
Proof.
  destruct (LSL_spec 5 8 192 0) as (r & He & HO & HC & _ & _ & HV);
    [lia | lia | cbn; lia | cbn; lia |].
  exists r. repeat split; assumption.
Defined.

(** X4. For LSR and an operand in [[0, 2^W)], [OUT] is the operand halved
    and [carry] the bit that fell off: [a = 2 * OUT + carry]; the top bit
    of [OUT] is 0, so [negative] is 0, and [overflow] is 0. *)
Theorem LSR_spec (fuel : nat) (W a b : Z) :
  (5 <= fuel)%nat -> 1 <= W -> 0 <= a < 2 ^ W -> 0 <= b < 2 ^ W ->
  exists r, evaluate fuel W a b AluFunc.LSR = Some r
    /\ OUT r = a / 2
    /\ carry r = a mod 2
    /\ a = 2 * OUT r + carry r
    /\ negative r = 0
    /\ overflow r = 0.
Proof.
  intros Hfuel HW Ha Hb.
  destruct (evaluate_arm fuel W a b AluFunc.LSR Hfuel HW Ha Hb)
    as (r & d & He & _ & Hsz & HA & HB & Hf & Hd & HO & HC & HV & _ & HN & _);
    [now apply code_in_range; vm_compute; tauto |].
  assert (HWr : 1 <= size r) by lia.
  rewrite (switch_LSR r HWr Hf) in Hd. injection Hd as <-.
  cbn [d_OUT d_carry d_overflow] in HO, HC, HV.
  rewrite Hsz, HA in *.
  change (OUT r = Z.shiftr a 1 mod 2 ^ W) in HO.
  assert (Hp : 0 < 2 ^ (W - 1)) by (apply Z.pow_pos_nonneg; lia).
  assert (HW2 : 2 ^ W = 2 * 2 ^ (W - 1))
    by (rewrite <- Z.pow_succ_r by lia; f_equal; lia).
  assert (Hhalf : 0 <= a / 2 < 2 ^ (W - 1))
    by (split; [apply Z.div_pos; lia | apply Z.div_lt_upper_bound; lia]).
  assert (HO' : OUT r = a / 2).
  { rewrite HO, Z.shiftr_div_pow2 by lia. change (2 ^ 1) with 2.
    apply Z.mod_small. lia. }
  assert (HC' : carry r = a mod 2) by (rewrite HC; apply Z.bit0_mod).
  exists r. split; [exact He |]. split; [exact HO' |].
  split; [exact HC' |]. split; [| split; [| exact HV]].
  - rewrite HO', HC'. apply Z.div_mod. lia.
  - rewrite HN, HO', (testbit_above (W - 1)) by lia. reflexivity.
Qed.

Lemma LSR_spec_witness :
  exists r, evaluate 5 8 133 0 AluFunc.LSR = Some r
    /\ OUT r = 66 /\ carry r = 1 /\ negative r = 0 /\ overflow r = 0.
Proof.
  destruct (LSR_spec 5 8 133 0) as (r & He & HO & HC & _ & HN & HV);
    [lia | lia | cbn; lia | cbn; lia |].
  exists r. repeat split; assumption.
Defined.

(** ** The arithmetic meaning of the flags *)

Lemma add_mod_cases (W a b : Z) :
  0 <= a < 2 ^ W -> 0 <= b < 2 ^ W ->
  (a + b) mod 2 ^ W = if a + b <? 2 ^ W then a + b else a + b - 2 ^ W.
Proof.
  intros Ha Hb. destruct (Z.ltb_spec (a + b) (2 ^ W)) as [Hlt | Hge].
  - apply Z.mod_small. lia.
  - symmetry. apply (Z.mod_unique (a + b) (2 ^ W) 1); lia.
Qed.

Lemma sub_mod_cases (W a b : Z) :
  0 <= a < 2 ^ W -> 0 <= b < 2 ^ W ->
  (a - b) mod 2 ^ W = if a <? b then a - b + 2 ^ W else a - b.
Proof.
  intros Ha Hb. destruct (Z.ltb_spec a b) as [Hlt | Hge].
  - symmetry. apply (Z.mod_unique (a - b) (2 ^ W) (-1)); lia.
  - apply Z.mod_small. lia.
Qed.

(** X5. For ADD, [carry] followed by [OUT] is the exact sum of the
    operands: [a + b = carry * 2^W + OUT]; so [carry] is set exactly when
    the sum does not fit in [W] bits. *)
Theorem ADD_carry_sum (fuel : nat) (W a b : Z) :
  (5 <= fuel)%nat -> 1 <= W -> 0 <= a < 2 ^ W -> 0 <= b < 2 ^ W ->
  exists r, evaluate fuel W a b AluFunc.ADD = Some r
    /\ a + b = carry r * 2 ^ W + OUT r
    /\ (carry r = 1 <-> 2 ^ W <= a + b).
Proof.
  intros Hfuel HW Ha Hb.
  destruct (evaluate_arm fuel W a b AluFunc.ADD Hfuel HW Ha Hb)
    as (r & d & He & _ & Hsz & HA & HB & Hf & Hd & HO & HC & _);
    [now apply code_in_range; vm_compute; tauto |].
  assert (HWr : 1 <= size r) by lia.
  rewrite (switch_ADD r HWr Hf) in Hd. injection Hd as <-.
  cbn [d_OUT d_carry] in HO, HC. rewrite Hsz, HA, HB in *.
  assert (Hp : 0 < 2 ^ W) by (apply Z.pow_pos_nonneg; lia).
  assert (Hsum : 0 <= a + b < 2 ^ (W + 1))
    by (rewrite Z.pow_add_r by lia; change (2 ^ 1) with 2; lia).
  rewrite (b2z_testbit_high W (a + b)) in HC by lia.
  assert (E : a + b = carry r * 2 ^ W + OUT r).
  { rewrite HC, HO, Z.mul_comm. apply Z.div_mod. lia. }
  exists r. split; [exact He |]. split; [exact E |].
  assert (HOr : 0 <= OUT r < 2 ^ W) by (rewrite HO; now apply Z.mod_pos_bound).
  assert (HCr : 0 <= carry r) by (rewrite HC; apply Z.div_pos; lia).
  split; nia.
Qed.

Lemma ADD_carry_sum_witness :
  exists r, evaluate 5 8 200 100 AluFunc.ADD = Some r
    /\ 200 + 100 = carry r * 2 ^ 8 + OUT r /\ carry r = 1.
Proof.
  destruct (ADD_carry_sum 5 8 200 100) as (r & He & HS & HC);
    [lia | lia | cbn; lia | cbn; lia |].
  exists r. repeat split; try assumption. apply HC. cbn. lia.
Defined.

(** X6. For ADD, [overflow] is set exactly when the sum of the operands
    read as signed numbers leaves the signed range of [W] bits; when it
    is clear, [OUT] read as a signed number is that sum. *)
Theorem ADD_signed_overflow (fuel : nat) (W a b : Z) :
  (5 <= fuel)%nat -> 1 <= W -> 0 <= a < 2 ^ W -> 0 <= b < 2 ^ W ->
  exists r, evaluate fuel W a b AluFunc.ADD = Some r
    /\ (overflow r = 1 <->
        ~ (- 2 ^ (W - 1) <= signed_value W a + signed_value W b
           < 2 ^ (W - 1)))
    /\ (overflow r = 0 ->
        signed_value W (OUT r) = signed_value W a + signed_value W b).
Proof.
  intros Hfuel HW Ha Hb.
  destruct (evaluate_arm fuel W a b AluFunc.ADD Hfuel HW Ha Hb)
    as (r & d & He & _ & Hsz & HA & HB & Hf & Hd & HO & _ & HV & _);
    [now apply code_in_range; vm_compute; tauto |].
  assert (HWr : 1 <= size r) by lia.
  rewrite (switch_ADD r HWr Hf) in Hd. injection Hd as <-.
  cbn [d_OUT d_overflow] in HO, HV. rewrite Hsz, HA, HB in *.
  assert (Hp : 0 < 2 ^ (W - 1)) by (apply Z.pow_pos_nonneg; lia).
  assert (HW2 : 2 ^ W = 2 * 2 ^ (W - 1))
    by (rewrite <- Z.pow_succ_r by lia; f_equal; lia).
  assert (HOr : 0 <= OUT r < 2 ^ W)
    by (rewrite HO; apply Z.mod_pos_bound; lia).
  rewrite add_mod_cases in HO by assumption.
  rewrite !testbit_top_ge in HV by assumption.
  exists r. split; [exact He |].
  unfold signed_value.
  rewrite ?(testbit_top_ge W (OUT r)), ?(testbit_top_ge W a),
    ?(testbit_top_ge W b) by assumption.
  destruct (Z.ltb_spec (a + b) (2 ^ W));
    destruct (Z.leb_spec (2 ^ (W - 1)) a);
    destruct (Z.leb_spec (2 ^ (W - 1)) b);
    destruct (Z.leb_spec (2 ^ (W - 1)) (OUT r));
    cbn in HV; split; try split; intros; lia.
Qed.

(** X6 at the specification's instance: as signed bytes 127 + 1 leaves
    the range. *)
Lemma ADD_signed_overflow_witness :
  exists r, evaluate 5 8 127 1 AluFunc.ADD = Some r /\ overflow r = 1.
Proof.
  destruct (ADD_signed_overflow 5 8 127 1) as (r & He & HV & _);
    [lia | lia | cbn; lia | cbn; lia |].
  exists r. split; [exact He |]. apply HV. vm_compute. intros [_ H].
  discriminate H.
Defined.

(** X7. For SUB, [OUT] less the borrow is the exact difference:
    [a - b = OUT - carry * 2^W]; [overflow] is set exactly when the
    difference of the operands read as signed numbers leaves the signed
    range, and when it is clear [OUT] read as a signed number is that
    difference. *)
Theorem SUB_borrow_diff (fuel : nat) (W a b : Z) :
  (5 <= fuel)%nat -> 1 <= W -> 0 <= a < 2 ^ W -> 0 <= b < 2 ^ W ->
  exists r, evaluate fuel W a b AluFunc.SUB = Some r
    /\ a - b = OUT r - carry r * 2 ^ W
    /\ (overflow r = 1 <->
        ~ (- 2 ^ (W - 1) <= signed_value W a - signed_value W b
           < 2 ^ (W - 1)))
    /\ (overflow r = 0 ->
        signed_value W (OUT r) = signed_value W a - signed_value W b).
Proof.
  intros Hfuel HW Ha Hb.
  destruct (evaluate_arm fuel W a b AluFunc.SUB Hfuel HW Ha Hb)
    as (r & d & He & _ & Hsz & HA & HB & Hf & Hd & HO & HC & HV & _);
    [now apply code_in_range; vm_compute; tauto |].
  assert (HWr : 1 <= size r) by lia.
  rewrite (switch_SUB r HWr Hf) in Hd. injection Hd as <-.
  cbn [d_OUT d_carry d_overflow] in HO, HC, HV. rewrite Hsz, HA, HB in *.
  assert (Hp : 0 < 2 ^ (W - 1)) by (apply Z.pow_pos_nonneg; lia).
  assert (HW2 : 2 ^ W = 2 * 2 ^ (W - 1))
    by (rewrite <- Z.pow_succ_r by lia; f_equal; lia).
  assert (HOr : 0 <= OUT r < 2 ^ W)
    by (rewrite HO; apply Z.mod_pos_bound; lia).
  rewrite sub_mod_cases in HO by assumption.
  rewrite (testbit_sub_borrow W a b) in HC by assumption.
  rewrite !testbit_top_ge in HV by assumption.
  exists r. split; [exact He |].
  unfold signed_value.
  rewrite ?(testbit_top_ge W (OUT r)), ?(testbit_top_ge W a),
    ?(testbit_top_ge W b) by assumption.
  destruct (Z.ltb_spec a b);
    destruct (Z.leb_spec (2 ^ (W - 1)) a);
    destruct (Z.leb_spec (2 ^ (W - 1)) b);
    destruct (Z.leb_spec (2 ^ (W - 1)) (OUT r));
    cbn in HV, HC; repeat split; intros; lia.
Qed.

Lemma SUB_borrow_diff_witness :
  exists r, evaluate 5 8 1 85 AluFunc.SUB = Some r
    /\ 1 - 85 = OUT r - carry r * 2 ^ 8.
Proof.
  destruct (SUB_borrow_diff 5 8 1 85) as (r & He & HD & _);
    [lia | lia | cbn; lia | cbn; lia |].
  exists r. split; assumption.
Defined.

(** X8. SUB compares its operands: [zero] is set exactly when they are
    equal, [carry] exactly when [a < b] as unsigned numbers, and [signed]
    exactly when [a < b] as signed numbers. *)
Theorem SUB_compares (fuel : nat) (W a b : Z) :
  (5 <= fuel)%nat -> 1 <= W -> 0 <= a < 2 ^ W -> 0 <= b < 2 ^ W ->
  exists r, evaluate fuel W a b AluFunc.SUB = Some r
    /\ (zero r = 1 <-> a = b)
    /\ (carry r = 1 <-> a < b)
    /\ (signed r = 1 <-> signed_value W a < signed_value W b).
Proof.
  intros Hfuel HW Ha Hb.
  destruct (evaluate_arm fuel W a b AluFunc.SUB Hfuel HW Ha Hb)
    as (r & d & He & _ & Hsz & HA & HB & Hf & Hd & HO & HC & HV
        & HZ & HN & HS);
    [now apply code_in_range; vm_compute; tauto |].
  assert (HWr : 1 <= size r) by lia.
  rewrite (switch_SUB r HWr Hf) in Hd. injection Hd as <-.
  cbn [d_OUT d_carry d_overflow] in HO, HC, HV. rewrite Hsz, HA, HB in *.
  assert (Hp : 0 < 2 ^ (W - 1)) by (apply Z.pow_pos_nonneg; lia).
  assert (HW2 : 2 ^ W = 2 * 2 ^ (W - 1))
    by (rewrite <- Z.pow_succ_r by lia; f_equal; lia).
  assert (HOr : 0 <= OUT r < 2 ^ W)
    by (rewrite HO; apply Z.mod_pos_bound; lia).
  rewrite sub_mod_cases in HO by assumption.
  rewrite (testbit_sub_borrow W a b) in HC by assumption.
  rewrite HN, HV in HS.
  rewrite !testbit_top_ge in HS by assumption.
  exists r. split; [exact He |].
  unfold signed_value.
  rewrite ?(testbit_top_ge W (OUT r)), ?(testbit_top_ge W a),
    ?(testbit_top_ge W b) by assumption.
  destruct (Z.ltb_spec a b);
    destruct (Z.leb_spec (2 ^ (W - 1)) a);
    destruct (Z.leb_spec (2 ^ (W - 1)) b);
    destruct (Z.leb_spec (2 ^ (W - 1)) (OUT r));
    destruct (Z.eqb_spec (OUT r) 0);
    cbn in HS, HC, HZ; repeat split; intros; lia.
Qed.

(** X8 at [0x01] against [0xFF]: below it as unsigned bytes, above it as
    signed bytes, since [0xFF] reads as -1. *)
Lemma SUB_compares_witness :
  exists r, evaluate 5 8 1 255 AluFunc.SUB = Some r
    /\ zero r <> 1 /\ carry r = 1 /\ signed r <> 1.
Proof.
  destruct (SUB_compares 5 8 1 255) as (r & He & HZ & HC & HS);
    [lia | lia | cbn; lia | cbn; lia |].
  exists r. split; [exact He |]. split; [| split].
  - intros H. apply HZ in H. discriminate H.
  - apply HC. lia.
  - intros H. apply HS in H. vm_compute in H. discriminate H.
Defined.

(** ** What every evaluation keeps *)

(** X9. Whatever the operation code, the operands and the earlier state
    of the instance, the settled result holds a word of [W] bits in
    [OUT] and a single bit in each of the five flags. *)
Theorem result_in_range (fuel : nat) (s : Alu) (a b f : Z) :
  (5 <= fuel)%nat -> 1 <= size s ->
  exists r, run fuel s a b f = Some r
    /\ 0 <= OUT r < 2 ^ size s
    /\ 0 <= zero r < 2 /\ 0 <= carry r < 2 /\ 0 <= negative r < 2
    /\ 0 <= overflow r < 2 /\ 0 <= signed r < 2.
Proof.
  intros Hfuel HW.
  destruct (run_settles fuel s a b f HW Hfuel)
    as (r & He & Hst & Hsz & _).
  assert (HWr : 1 <= size r) by lia.
  destruct (stable_fields r HWr Hst)
    as (d & Hd & HO & HC & HV & HZ & HN & HS).
  destruct (switch_bits r d Hd) as [Hc Hv].
  pose proof (switch_OUT_range r d ltac:(lia) Hd) as Ho.
  rewrite <- HO, Hsz in Ho. rewrite <- HC in Hc. rewrite <- HV in Hv.
  assert (Hz : 0 <= zero r < 2) by (rewrite HZ; apply b2z_range).
  assert (Hn : 0 <= negative r < 2) by (rewrite HN; apply b2z_range).
  exists r. repeat split; try lia.
  - exact He.
  - rewrite HS.
    assert (En : negative r = 0 \/ negative r = 1) by lia.
    assert (Ev : overflow r = 0 \/ overflow r = 1) by lia.
    destruct En as [-> | ->], Ev as [-> | ->]; cbn; lia.
  - rewrite HS.
    assert (En : negative r = 0 \/ negative r = 1) by lia.
    assert (Ev : overflow r = 0 \/ overflow r = 1) by lia.
    destruct En as [-> | ->], Ev as [-> | ->]; cbn; lia.
Qed.

(** X9 on an instance whose signals hold values no pass could have put
    there. *)
Lemma result_in_range_witness :
  exists r, run 5 (mkAlu 8 0 0 999 0 7 7 7 7 7) 300 (-1) 40 = Some r
    /\ 0 <= OUT r < 2 ^ 8
    /\ 0 <= zero r < 2 /\ 0 <= carry r < 2 /\ 0 <= negative r < 2
    /\ 0 <= overflow r < 2 /\ 0 <= signed r < 2.
Proof.
  apply (result_in_range 5 (mkAlu 8 0 0 999 0 7 7 7 7 7) 300 (-1) 40);
    [lia | cbn; lia].
Defined.

(** X10. The ALU is combinational: the settled result depends on the
    width and the driven inputs only, not on what the instance held
    before nor on how many passes the simulator was allowed beyond the
    five it needs. *)
Theorem run_forgets_state (fuel fuel' : nat) (s s' : Alu) (a b f : Z) :
  (5 <= fuel)%nat -> (5 <= fuel')%nat ->
  1 <= size s -> size s' = size s ->
  run fuel s a b f = run fuel' s' a b f.
Proof.
  intros Hfuel Hfuel' HW Hsz.
  assert (HW' : 1 <= size s') by lia.
  destruct (run_settles fuel s a b f HW Hfuel)
    as (r & He & Hst & S1 & A1 & B1 & F1).
  destruct (run_settles fuel' s' a b f HW' Hfuel')
    as (r' & He' & Hst' & S2 & A2 & B2 & F2).
  rewrite He, He'. f_equal.
  apply stable_unique; try assumption; [lia |].
  unfold same_inputs. rewrite S1, S2, A1, A2, B1, B2, F1, F2, Hsz.
  repeat split.
Qed.

(** X10 on the test bench's first two steps: CLV after the addition
    gives what CLV gives on a fresh instance. *)
Lemma run_forgets_state_witness :
  run 5 (mkAlu 8 1 85 86 1 0 0 0 0 0) 1 85 AluFunc.CLV
  = run 9 (mkAlu 8 0 0 0 0 0 0 0 0 0) 1 85 AluFunc.CLV.
Proof.
  apply (run_forgets_state 5 9 (mkAlu 8 1 85 86 1 0 0 0 0 0)
           (mkAlu 8 0 0 0 0 0 0 0 0 0) 1 85 AluFunc.CLV);
    [lia | lia | cbn; lia | reflexivity].
Defined.

(** X11. With the passes it needs, an evaluation fails exactly when the
    width is below 1, whatever the operands and the operation code: a
    negative width is refused at construction, width 0 at elaboration. *)
Theorem evaluate_fails_iff (fuel : nat) (W a b f : Z) :
  (5 <= fuel)%nat -> (evaluate fuel W a b f = None <-> W < 1).
Proof.
  intros Hfuel. destruct (Z.lt_ge_cases W 1) as [Hlt | Hge].
  - split; [intros _; exact Hlt | intros _].
    unfold evaluate. destruct (Z.lt_ge_cases W 0) as [Hneg | Hpos].
    + unfold Alu_init, Value.Shape.
      replace (W <? 0) with true by (symmetry; apply Z.ltb_lt; lia).
      reflexivity.
    + assert (W = 0) by lia. subst W.
      rewrite Alu_init_nonneg by lia. cbn [bind]. unfold run.
      destruct fuel as [| k]; [reflexivity |].
      cbn [settle]. unfold elaborate at 1. cbn [size OUT drive].
      rewrite getitem_out_of_range by (cbn; lia). reflexivity.
  - destruct (evaluate_settles fuel W a b f Hge Hfuel) as (r & -> & _).
    split; [discriminate | lia].
Qed.

Lemma evaluate_fails_iff_witness :
  evaluate 5 0 0 0 AluFunc.ADD = None <-> 0 < 1.
Proof. apply (evaluate_fails_iff 5 0 0 0 AluFunc.ADD). lia. Defined.

(** X12. The inputs wrap to their signals: an operand counts modulo
    [2^W] and an operation code modulo 32, so a code beyond the
    enumeration's five bits acts as the code it wraps to, not as the
    default. *)
Theorem inputs_wrap (fuel : nat) (W a b f i j k : Z) :
  evaluate fuel W (a + i * 2 ^ W) (b + j * 2 ^ W)
           (f + k * 2 ^ AluFunc.width)
  = evaluate fuel W a b f.
Proof.
  unfold evaluate. destruct (Z.lt_ge_cases W 0) as [Hneg | Hpos].
  - unfold Alu_init, Value.Shape.
    replace (W <? 0) with true by (symmetry; apply Z.ltb_lt; lia).
    reflexivity.
  - rewrite Alu_init_nonneg by assumption. cbn [bind].
    unfold run, drive, Value.assign, Value.Const. cbn [Value.val size].
    assert (Hp : 0 < 2 ^ W) by (apply Z.pow_pos_nonneg; lia).
    rewrite !Z.mod_add by (try lia; vm_compute; discriminate).
    reflexivity.
Qed.

(** ** How the operations compose *)

(** X13. NEG is an involution on words: the operand and its complement
    add up to the all-ones word [2^W - 1], and complementing the result
    again restores the operand. *)
Theorem NEG_involution (fuel : nat) (W a b b' : Z) :
  (5 <= fuel)%nat -> 1 <= W -> 0 <= a < 2 ^ W ->
  0 <= b < 2 ^ W -> 0 <= b' < 2 ^ W ->
  exists r1 r2,
    evaluate fuel W a b AluFunc.NEG = Some r1
    /\ a + OUT r1 = 2 ^ W - 1
    /\ evaluate fuel W (OUT r1) b' AluFunc.NEG = Some r2
    /\ OUT r2 = a.
Proof.
  intros Hfuel HW Ha Hb Hb'.
  destruct (evaluate_arm fuel W a b AluFunc.NEG Hfuel HW Ha Hb)
    as (r1 & d1 & E1 & _ & S1 & A1 & _ & F1 & D1 & O1 & _);
    [now apply code_in_range; vm_compute; tauto |].
  rewrite (switch_NEG r1 F1) in D1. injection D1 as <-.
  cbn [d_OUT] in O1. rewrite S1, A1, lnot_mod_pow2 in O1 by lia.
  assert (Hr : 0 <= OUT r1 < 2 ^ W) by lia.
  destruct (evaluate_arm fuel W (OUT r1) b' AluFunc.NEG Hfuel HW Hr Hb')
    as (r2 & d2 & E2 & _ & S2 & A2 & _ & F2 & D2 & O2 & _);
    [now apply code_in_range; vm_compute; tauto |].
  rewrite (switch_NEG r2 F2) in D2. injection D2 as <-.
  cbn [d_OUT] in O2. rewrite S2, A2, lnot_mod_pow2 in O2 by lia.
  exists r1, r2. repeat split; try assumption; lia.
Qed.

Lemma NEG_involution_witness :
  exists r1 r2,
    evaluate 5 8 85 0 AluFunc.NEG = Some r1
    /\ 85 + OUT r1 = 2 ^ 8 - 1
    /\ evaluate 5 8 (OUT r1) 0 AluFunc.NEG = Some r2
    /\ OUT r2 = 85.
Proof.
  apply (NEG_involution 5 8 85 0 0); [lia | lia | cbn; lia ..].
Defined.

Lemma ROR_then_ROL (W a : Z) :
  1 <= W -> 0 <= a < 2 ^ W ->
  let R :=
    Z.lor (Z.shiftr a 1) (Z.shiftl (Z.b2z (Z.testbit a 0)) (W - 1))
    mod 2 ^ W in
  Z.lor (Z.shiftl R 1) (Z.b2z (Z.testbit R (W - 1))) mod 2 ^ W = a.
Proof.
  intros HW Ha R. subst R. bitwise i Hi.
  rewrite (Z.shiftr_spec a 1 (W - 1)), (Z.shiftl_spec _ (W - 1) (W - 1)),
    testbit_b2z by lia.
  replace (W - 1 <? W) with true by (symmetry; apply Z.ltb_lt; lia).
  replace (W - 1 + 1) with W by lia.
  replace (W - 1 - (W - 1)) with 0 by lia.
  rewrite (testbit_above W a W) by lia.
  destruct (Z.ltb_spec i W) as [Hlt | Hge].
  - destruct (Z.eq_dec i 0) as [-> | Hne].
    + rewrite !(fun x => Z.testbit_neg_r x (0 - 1)) by lia.
      replace (0 - 1 <? W) with true by (symmetry; apply Z.ltb_lt; lia).
      destruct (Z.testbit a 0); reflexivity.
    + rewrite Z.shiftr_spec, Z.shiftl_spec, testbit_b2z by lia.
      replace (i - 1 <? W) with true by (symmetry; apply Z.ltb_lt; lia).
      replace (i - 1 + 1) with i by lia.
      replace (i - 1 - (W - 1) =? 0) with false
        by (symmetry; apply Z.eqb_neq; lia).
      replace (i =? 0) with false by (symmetry; apply Z.eqb_neq; lia).
      destruct (Z.testbit a i), (Z.testbit a 0); reflexivity.
  - cbn. symmetry. now apply (testbit_above W).
Qed.

(** X14. The round trip the other way: applying ROR to an operand in
    [[0, 2^W)] and then ROL to the resulting [OUT], on the instance as
    ROR left it, restores the operand. *)
Theorem ROR_ROL_round_trip (fuel : nat) (s : Alu) (a b b' : Z) :
  (5 <= fuel)%nat -> 1 <= size s -> 0 <= a < 2 ^ size s ->
  exists r1 r2,
    run fuel s a b AluFunc.ROR = Some r1
    /\ run fuel r1 (OUT r1) b' AluFunc.ROL = Some r2
    /\ OUT r2 = a.
Proof.
  intros Hfuel HW Ha.
  destruct (ROR_settled fuel s a b Hfuel HW Ha)
    as (r1 & E1 & S1 & O1 & C1).
  assert (HW1 : 1 <= size r1) by lia.
  assert (Hrange : 0 <= OUT r1 < 2 ^ size r1).
  { rewrite O1, S1. apply Z.mod_pos_bound. apply Z.pow_pos_nonneg; lia. }
  destruct (ROL_settled fuel r1 (OUT r1) b' Hfuel HW1 Hrange)
    as (r2 & E2 & S2 & O2 & C2).
  exists r1, r2. split; [exact E1 |]. split; [exact E2 |].
  rewrite O2, C2, S1, O1, C1. now apply ROR_then_ROL.
Qed.

Lemma ROR_ROL_round_trip_witness :
  exists r1 r2,
    run 5 (mkAlu 8 0 0 0 0 0 0 0 0 0) 151 0 AluFunc.ROR = Some r1
    /\ run 5 r1 (OUT r1) 0 AluFunc.ROL = Some r2
    /\ OUT r2 = 151.
Proof.
  apply (ROR_ROL_round_trip 5 (mkAlu 8 0 0 0 0 0 0 0 0 0) 151 0 0);
    [lia | cbn; lia | cbn; lia].
Defined.

Lemma lor_pow2_add (n x : Z) :
  0 <= n -> 0 <= x < 2 ^ n -> Z.lor x (2 ^ n) = x + 2 ^ n.
Proof.
  intros Hn Hx. rewrite <- Z.add_lor_land.
  replace (Z.land x (2 ^ n)) with 0; [lia |].
  symmetry. apply Z.bits_inj'. intros i Hi.
  rewrite Z.land_spec, Z.pow2_bits_eqb, Z.testbit_0_l by assumption.
  destruct (Z.eqb_spec n i) as [<- | Hne].
  - now rewrite (testbit_above n x n) by lia.
  - apply andb_false_r.
Qed.

(** X15. ASR halves an operand whose sign bit is clear; on an operand
    whose sign bit is set it keeps the sign bit but fills bit [W - 2]
    with 0, so from width 2 on the result read as a signed number is
    [2^(W-2)] below the signed half. *)
Theorem ASR_halves (fuel : nat) (W a b : Z) :
  (5 <= fuel)%nat -> 1 <= W -> 0 <= a < 2 ^ W -> 0 <= b < 2 ^ W ->
  exists r, evaluate fuel W a b AluFunc.ASR = Some r
    /\ (Z.testbit a (W - 1) = false -> OUT r = a / 2)
    /\ (Z.testbit a (W - 1) = true ->
        OUT r = 2 ^ (W - 1) + (a - 2 ^ (W - 1)) / 2)
    /\ (Z.testbit a (W - 1) = true -> 2 <= W ->
        signed_value W (OUT r) = signed_value W a / 2 - 2 ^ (W - 2)).
Proof.
  intros Hfuel HW Ha Hb.
  destruct (evaluate_arm fuel W a b AluFunc.ASR Hfuel HW Ha Hb)
    as (r & d & He & _ & Hsz & HA & _ & Hf & Hd & HO & _);
    [now apply code_in_range; vm_compute; tauto |].
  assert (HWr : 1 <= size r) by lia.
  rewrite (switch_ASR r HWr Hf) in Hd. injection Hd as <-.
  cbn [d_OUT] in HO. rewrite Hsz, HA, ASR_fits in HO by assumption.
  assert (Hp : 0 < 2 ^ (W - 1)) by (apply Z.pow_pos_nonneg; lia).
  assert (HW2 : 2 ^ W = 2 * 2 ^ (W - 1))
    by (rewrite <- Z.pow_succ_r by lia; f_equal; lia).
  rewrite Z.shiftr_div_pow2, Z.shiftl_mul_pow2 in HO by lia.
  change (2 ^ 1) with 2 in HO.
  pose proof (testbit_top_ge W a HW Ha) as Htop.
  assert (Hset : Z.testbit a (W - 1) = true ->
                 OUT r = 2 ^ (W - 1) + (a - 2 ^ (W - 1)) / 2).
  { intros Hs. rewrite Hs in Htop, HO.
    symmetry in Htop. apply Z.leb_le in Htop.
    assert (Em : a mod 2 ^ (W - 1) = a - 2 ^ (W - 1))
      by (symmetry; apply (Z.mod_unique a (2 ^ (W - 1)) 1); lia).
    rewrite Em in HO. cbn [Z.b2z] in HO. rewrite Z.mul_1_l in HO.
    rewrite lor_pow2_add in HO; [lia | lia |].
    split; [apply Z.div_pos; lia | apply Z.div_lt_upper_bound; lia]. }
  exists r. split; [exact He |]. split; [| split; [exact Hset |]].
  - intros Hs. rewrite Hs in Htop, HO.
    symmetry in Htop. apply Z.leb_gt in Htop.
    rewrite Z.mod_small in HO by lia. cbn [Z.b2z] in HO.
    now rewrite Z.mul_0_l, Z.lor_0_r in HO.
  - intros Hs HW3. specialize (Hset Hs).
    assert (Hq : 0 < 2 ^ (W - 2)) by (apply Z.pow_pos_nonneg; lia).
    assert (HW1 : 2 ^ (W - 1) = 2 * 2 ^ (W - 2))
      by (rewrite <- Z.pow_succ_r by lia; f_equal; lia).
    rewrite Hs in Htop. symmetry in Htop. apply Z.leb_le in Htop.
    assert (Hhalf : 0 <= (a - 2 ^ (W - 1)) / 2 < 2 ^ (W - 2))
      by (split; [apply Z.div_pos; lia | apply Z.div_lt_upper_bound; lia]).
    unfold signed_value. rewrite Hs.
    rewrite (testbit_top_ge W (OUT r)) by lia.
    replace (2 ^ (W - 1) <=? OUT r) with true
      by (symmetry; apply Z.leb_le; lia).
    rewrite Hset.
    replace (a - 2 ^ W) with (a - 2 ^ (W - 1) + (- 2 ^ (W - 2)) * 2) by lia.
    rewrite Z.div_add by lia. lia.
Qed.

(** X15 at [0b10000101], which reads as -123: ASR gives [0b10000010],
    which reads as -126, where the signed half is -62. *)
Lemma ASR_halves_witness :
  exists r, evaluate 5 8 133 0 AluFunc.ASR = Some r
    /\ OUT r = 130 /\ signed_value 8 (OUT r) = -126.
Proof.
  destruct (ASR_halves 5 8 133 0) as (r & He & _ & HO & HS);
    [lia | lia | cbn; lia | cbn; lia |].
  exists r. split; [exact He |].
  split; [apply HO; reflexivity | rewrite HS; [reflexivity .. | lia]].
Defined.

(** ** The test bench *)

(** Settling an instance whose inputs fit is evaluating those inputs from
    scratch. *)
Lemma settle_is_evaluate (fuel : nat) (s : Alu) :
  (5 <= fuel)%nat -> 1 <= size s -> inputs_in_range s ->
  exists r, settle fuel s = Some r
    /\ evaluate fuel (size s) (A s) (B s) (func s) = Some r
    /\ same_inputs r s.
Proof.
  intros Hfuel HW (Ha & Hb & Hf).
  destruct (settle_converges fuel s HW Hfuel) as (r & Hr & Hst & Hin).
  destruct (evaluate_settles fuel (size s) (A s) (B s) (func s) HW Hfuel)
    as (r' & He & Hst' & S' & A' & B' & F').
  rewrite Z.mod_small in A', B', F' by assumption.
  assert (E : r' = r).
  { apply stable_unique; try assumption; [lia |].
    destruct Hin as (I1 & I2 & I3 & I4). unfold same_inputs.
    rewrite S', A', B', F', I1, I2, I3, I4. repeat split. }
  subst r'. exists r. repeat split; try assumption; apply Hin.
Qed.

Lemma simulate_from (fuel : nat) (W : Z) (cmds : list Command) :
  (5 <= fuel)%nat -> 1 <= W ->
  forall s, size s = W -> inputs_in_range s ->
    exists trace, simulate fuel s cmds = Some trace
      /\ Forall2
           (fun r i =>
              evaluate fuel W (fst (fst i)) (snd (fst i)) (snd i) = Some r)
           trace (snapshots W (A s) (B s) (func s) cmds).
Proof.
  intros Hfuel HW.
  assert (Hp : 0 < 2 ^ W) by (apply Z.pow_pos_nonneg; lia).
  assert (Hq : 0 < 2 ^ AluFunc.width) by reflexivity.
  induction cmds as [| c rest IH]; intros s Hsz Hin.
  - exists []. split; [reflexivity | constructor].
  - destruct Hin as (Ha & Hb & Hf). rewrite Hsz in Ha, Hb.
    destruct c as [v | v | v |]; cbn [simulate snapshots].
    + destruct (IH (set_A s v)) as (trace & Ht & HF).
      * cbn. exact Hsz.
      * unfold inputs_in_range, set_A, Value.assign, Value.Const.
        cbn [size A B func Value.val]. rewrite Hsz.
        repeat split; try lia; now apply Z.mod_pos_bound.
      * exists trace. split; [exact Ht |].
        unfold set_A, Value.assign, Value.Const in HF.
        cbn [size A B func Value.val] in HF. now rewrite Hsz in HF.
    + destruct (IH (set_B s v)) as (trace & Ht & HF).
      * cbn. exact Hsz.
      * unfold inputs_in_range, set_B, Value.assign, Value.Const.
        cbn [size A B func Value.val]. rewrite Hsz.
        repeat split; try lia; now apply Z.mod_pos_bound.
      * exists trace. split; [exact Ht |].
        unfold set_B, Value.assign, Value.Const in HF.
        cbn [size A B func Value.val] in HF. now rewrite Hsz in HF.
    + destruct (IH (set_func s v)) as (trace & Ht & HF).
      * cbn. exact Hsz.
      * unfold inputs_in_range, set_func, Value.assign, Value.Const.
        cbn [size A B func Value.val]. rewrite Hsz.
        repeat split; try lia; now apply Z.mod_pos_bound.
      * exists trace. split; [exact Ht |].
        unfold set_func, Value.assign, Value.Const in HF.
        cbn [size A B func Value.val] in HF. exact HF.
    + destruct (settle_is_evaluate fuel s Hfuel)
        as (r & Hr & He & (I1 & I2 & I3 & I4));
        [lia | unfold inputs_in_range; rewrite Hsz; auto |].
      rewrite Hsz in He.
      destruct (IH r) as (trace & Ht & HF).
      * lia.
      * unfold inputs_in_range. rewrite I1, I2, I3, I4, Hsz. auto.
      * rewrite Hr. cbn [bind]. rewrite Ht. cbn [bind].
        exists (r :: trace). split; [reflexivity |].
        rewrite I2, I3, I4 in HF. constructor; [exact He | exact HF].
Qed.

(** X16. The test bench carries nothing from one step to the next: for
    any list of commands run on a fresh instance of width at least 1,
    the simulation succeeds and the instance recorded at each [Delay] is
    the evaluation from scratch of the inputs assigned up to there. *)
Theorem simulate_is_pointwise (fuel : nat) (W : Z) (cmds : list Command) :
  (5 <= fuel)%nat -> 1 <= W ->
  exists trace,
    (self <- Alu_init W ;; simulate fuel self cmds) = Some trace
    /\ Forall2
         (fun r i =>
            evaluate fuel W (fst (fst i)) (snd (fst i)) (snd i) = Some r)
         trace (snapshots W 0 0 0 cmds)
    /\ length trace = length (filter is_Delay cmds).
Proof.
  intros Hfuel HW. rewrite Alu_init_nonneg by lia. cbn [bind].
  assert (Hp : 0 < 2 ^ W) by (apply Z.pow_pos_nonneg; lia).
  destruct (simulate_from fuel W cmds Hfuel HW (mkAlu W 0 0 0 0 0 0 0 0 0))
    as (trace & Ht & HF).
  - reflexivity.
  - unfold inputs_in_range. cbn [size A B func].
    repeat split; try lia; reflexivity.
  - cbn [A B func] in HF. exists trace.
    split; [exact Ht |]. split; [exact HF |].
    apply Forall2_length in HF. rewrite HF. clear.
    generalize 0 at 1 as a. generalize 0 at 1 as b. generalize 0 as f.
    induction cmds as [| c rest IH]; intros f b a; [reflexivity |].
    destruct c; cbn [snapshots filter is_Delay length]; auto.
Qed.

(** X16 at the main block: the ten delays of [process] on [Alu()] record
    ten evaluations, each of its own inputs. *)
Lemma simulate_is_pointwise_witness :
  exists trace,
    main 5 = Some trace
    /\ Forall2
         (fun r i =>
            evaluate 5 8 (fst (fst i)) (snd (fst i)) (snd i) = Some r)
         trace (snapshots 8 0 0 0 process)
    /\ length trace = 10%nat.
Proof.
  apply (simulate_is_pointwise 5 8 process); lia.
Defined.
